(** * HW2/image_generator.py: the synthetic image compositor

    A shallow embedding of [ImageGenerator]: the random draws, the
    image buffers, the calls into the image codec ([cv2]) and into the
    dataset loader, and the properties the specification states about
    them.

    Conventions.
    - A Python [int] is a [Z].
    - A Python [float] is the rational it denotes ([Q]); the rounding of
      the individual floating-point operations is not modelled, the
      conversions [int(...)], [round(..., 2)] and the store into an 8-bit
      array are.
    - A NumPy array of pixels is its shape together with its item
      function; items outside the shape are never read.
    - The interpreter state (the two global generators, the loader
      object, the directories that exist, the calls made so far) is
      threaded explicitly; an exception is a result, not a crash. *)

From Stdlib Require Import ZArith QArith Qround Qabs Lia Lqa String List.
From stdpp Require Import base tactics option list strings pretty gmap.

Open Scope Z_scope.

(* ------------------------------------------------------------------ *)
(** * Exceptions and results *)

Inductive exn : Type :=
  | ValueError (msg : string)      (* raised by the program and by [random] / NumPy *)
  | IndexError                     (* an index beyond an axis *)
  | cv2_error.                     (* an assertion of the codec *)

Inductive Result (A : Type) : Type :=
  | Ok (a : A)
  | Raise (e : exn).
Arguments Ok {A} a.
Arguments Raise {A} e.

(* ------------------------------------------------------------------ *)
(** * Numbers *)

Module Num.

(** [int(x)] on a float: truncation toward zero. *)
Definition int (x : Q) : Z := Z.quot (Qnum x) (Zpos (Qden x)).

(** [round(x)] to an integer, ties to even. *)
Definition round_half_even (x : Q) : Z :=
  let f := Qfloor x in
  let r := (x - inject_Z f)%Q in
  match (r ?= 1 # 2)%Q with
  | Lt => f
  | Gt => f + 1
  | Eq => if Z.even f then f else f + 1
  end.

(** [round(x, 2)]. *)
Definition round2 (x : Q) : Q :=
  (inject_Z (round_half_even (x * 100)) / 100)%Q.

(** [min] of the pair [img_size]. *)
Definition min2 (p : Z * Z) : Z := Z.min (fst p) (snd p).

(** The store of a float into a [uint8] array: the fraction is dropped
    and the integer is reduced to eight bits. *)
Definition to_uint8 (x : Q) : Z := int x mod 256.

(** [int(n * 0.01)] for an integer [n]. *)
Definition percent_of (n : Z) : Z := int (inject_Z n * (1 # 100)).

End Num.

(* ------------------------------------------------------------------ *)
(** * Pixel arrays *)

Record ndarray : Type := mk_ndarray {
  shape0 : Z;                      (* rows     *)
  shape1 : Z;                      (* columns  *)
  shape2 : Z;                      (* channels *)
  item : Z -> Z -> Z -> Z          (* [a[i, j, c]] *)
}.

(** Every item inside the shape is an 8-bit value. *)
Definition uint8_array (a : ndarray) : Prop :=
  forall i j c, 0 <= i < shape0 a -> 0 <= j < shape1 a -> 0 <= c < shape2 a ->
    0 <= item a i j c <= 255.

Definition has_shape (a : ndarray) (h w c : Z) : Prop :=
  shape0 a = h /\ shape1 a = w /\ shape2 a = c.

Module Slice.

(** Python's normalisation of one bound of [a[lo:hi]] on an axis of
    length [len]: a negative bound counts from the end, and the result
    is clamped to the axis. *)
Definition clamp (len k : Z) : Z :=
  let k' := if k <? 0 then k + len else k in
  Z.max 0 (Z.min len k').

(** The first index and the length of [a[lo:hi]]. *)
Definition start (len lo : Z) : Z := clamp len lo.
Definition length (len lo hi : Z) : Z :=
  Z.max 0 (clamp len hi - clamp len lo).

(** [a[:hi]]. *)
Definition prefix_length (len hi : Z) : Z := length len 0 hi.

End Slice.

(** [cell[:cell_h, :cell_w]]: a view of the leading rows and columns. *)
Definition crop (a : ndarray) (cell_h cell_w : Z) : ndarray :=
  {| shape0 := Slice.prefix_length (shape0 a) cell_h;
     shape1 := Slice.prefix_length (shape1 a) cell_w;
     shape2 := shape2 a;
     item := item a |}.

(* ------------------------------------------------------------------ *)
(** * The interpreter state *)

(** A generator of the [random] module or of [numpy.random]: the raw
    words it is going to deliver, and how many were taken. *)
Record Rng : Type := mk_rng {
  tape : nat -> N;
  pos : nat
}.

Definition rng_next (g : Rng) : N * Rng :=
  (tape g (pos g), {| tape := tape g; pos := S (pos g) |}).

Inductive ImreadFlag : Type := IMREAD_UNCHANGED | IMREAD_COLOR.

(** What the program asked of its collaborators, oldest first. *)
Inductive Event : Type :=
  | EvBackground (path : string)                  (* [get_random_background()] returned [path] *)
  | EvCell (path : string)                        (* [get_random_cell()] returned [path] *)
  | EvImread (path : string) (flag : ImreadFlag) (decoded : bool)
  | EvMakedirs (dir : string)
  | EvImwrite (path : string) (img : ndarray).     (* [cv2.imwrite(path, img)] was called *)

Record World (S : Type) : Type := mk_world {
  py_rng : Rng;                    (* the state behind [random.*] *)
  np_rng : Rng;                    (* the state behind [np.random.*] *)
  loader : S;                      (* the [dataset_loader] object *)
  dirs : gset string;              (* the paths for which [os.path.exists] holds *)
  log : list Event
}.
Arguments mk_world {S}.
Arguments py_rng {S}.
Arguments np_rng {S}.
Arguments loader {S}.
Arguments dirs {S}.
Arguments log {S}.

(** A statement: from a state to a value or an exception, and the state
    it leaves behind. *)
Definition M (S A : Type) : Type := World S -> Result A * World S.

Definition ret {S A} (a : A) : M S A := fun w => (Ok a, w).

Definition bind {S A B} (m : M S A) (k : A -> M S B) : M S B :=
  fun w =>
    match m w with
    | (Ok a, w') => k a w'
    | (Raise e, w') => (Raise e, w')
    end.

Definition raise {S A} (e : exn) : M S A := fun w => (Raise e, w).

Definition lift {S A} (r : Result A) : M S A := fun w => (r, w).

Definition emit {S} (ev : Event) : M S unit :=
  fun w => (Ok tt, mk_world (py_rng w) (np_rng w) (loader w) (dirs w) (log w ++ [ev])).

Declare Scope stmt_scope.
Delimit Scope stmt_scope with stmt.
Notation "x <- m ;; k" := (bind m (fun x => k))
  (at level 100, m at next level, right associativity) : stmt_scope.
Notation "m ;;; k" := (bind m (fun _ => k))
  (at level 100, right associativity) : stmt_scope.
Open Scope stmt_scope.

(** [for x in l: body(x)] *)
Fixpoint for_each {S A} (l : list A) (body : A -> M S unit) : M S unit :=
  match l with
  | [] => ret tt
  | x :: l' => body x ;;; for_each l' body
  end.

(** [for x in l: acc = body(acc, x)] *)
Fixpoint fold_each {S A B} (l : list A) (acc : B) (body : B -> A -> M S B) : M S B :=
  match l with
  | [] => ret acc
  | x :: l' => acc' <- body acc x ;; fold_each l' acc' body
  end.

(** [[body() for _ in l]] *)
Fixpoint collect {S A B} (l : list A) (body : A -> M S B) : M S (list B) :=
  match l with
  | [] => ret []
  | x :: l' => y <- body x ;; ys <- collect l' body ;; ret (y :: ys)
  end.

(** [range(n)] *)
Definition range (n : Z) : list Z := seqZ 0 n.

(* ------------------------------------------------------------------ *)
(** * The [random] module and [numpy.random] *)

Module Random.

Definition draw {S} : M S N :=
  fun w => let (r, g) := rng_next (py_rng w) in
           (Ok r, mk_world g (np_rng w) (loader w) (dirs w) (log w)).

(** [random.randint(a, b)]: an integer of [[a, b]], both ends
    included; an empty range is an error, detected before any word is
    drawn. *)
Definition randint {S} (a b : Z) : M S Z :=
  if b <? a then raise (ValueError "empty range for randrange()")
  else r <- draw ;; ret (a + Z.of_N r mod (b - a + 1)).

(** [random.random()]: a multiple of [2^-53] in [[0, 1)]. *)
Definition random {S} : M S Q :=
  r <- draw ;; ret (Z.of_N r mod 2 ^ 53 # 2 ^ 53)%Q.

(** [random.uniform(a, b)] is [a + (b - a) * random()]. *)
Definition uniform {S} (a b : Q) : M S Q :=
  u <- random ;; ret (a + (b - a) * u)%Q.

End Random.

Module NpRandom.

Definition draw {S} : M S N :=
  fun w => let (r, g) := rng_next (np_rng w) in
           (Ok r, mk_world (py_rng w) g (loader w) (dirs w) (log w)).

(** [np.random.randint(low, high, size=n)]: [n] integers of
    [[low, high)]. *)
Definition randint {S} (low high : Z) (size : nat) : M S (list Z) :=
  if high <=? low then raise (ValueError "low >= high")
  else collect (seq 0 size) (fun _ => r <- draw ;; ret (low + Z.of_N r mod (high - low))).

End NpRandom.

(* ------------------------------------------------------------------ *)
(** * The collaborators *)

(** A 2x3 affine matrix of floats. *)
Record Matrix : Type := mk_matrix {
  m00 : Q; m01 : Q; m02 : Q;
  m10 : Q; m11 : Q; m12 : Q
}.

(** The part of OpenCV the program calls, with the contract it relies
    on.  A size [dsize] is (width, height); a shape is (rows, columns,
    channels).  [IMREAD_COLOR] always gives three 8-bit channels;
    [IMREAD_UNCHANGED] gives what the file holds.  A resize or a warp
    to a size without pixels is refused. *)
Class Cv2 : Type := {
  imread : string -> ImreadFlag -> option ndarray;      (* [None]: the file does not decode *)
  resize : ndarray -> Z * Z -> Result ndarray;
  getRotationMatrix2D : Z * Z -> Z -> Q -> Matrix;
  warpAffine : ndarray -> Matrix -> Z * Z -> Result ndarray;

  imread_color : forall p a, imread p IMREAD_COLOR = Some a ->
    shape2 a = 3 /\ uint8_array a;
  imread_nonempty : forall p f a, imread p f = Some a ->
    0 < shape0 a /\ 0 < shape1 a /\ 0 < shape2 a;

  resize_ok : forall a w h, 0 < shape0 a -> 0 < shape1 a -> 0 < w -> 0 < h ->
    exists b, resize a (w, h) = Ok b /\ has_shape b h w (shape2 a) /\
              (uint8_array a -> uint8_array b);
  resize_empty : forall a w h, w <= 0 \/ h <= 0 -> resize a (w, h) = Raise cv2_error;

  (** With scale 1 the first row holds the cosine and the sine of the
      angle. *)
  rotation_unit : forall center angle,
    let m := getRotationMatrix2D center angle 1 in
    (1 <= Qabs (m00 m) + Qabs (m01 m))%Q;

  warpAffine_ok : forall a m w h, 0 < shape0 a -> 0 < shape1 a -> 0 < w -> 0 < h ->
    exists b, warpAffine a m (w, h) = Ok b /\ has_shape b h w (shape2 a) /\
              (uint8_array a -> uint8_array b)
}.

(** The dataset loader handed to the constructor ([dataset_loader.py]
    is not among the sources; the specification gives its interface:
    two operations that return a path): an object with a state of its
    own, which may also draw from the [random] module. *)
Class DatasetLoader (S : Type) : Type := {
  get_random_background : S -> Rng -> string * S * Rng;
  get_random_cell : S -> Rng -> string * S * Rng
}.

(** The two generators as [seed(n)] leaves them. *)
Class Seeding : Type := {
  random_seed : Z -> Rng;
  np_random_seed : Z -> Rng
}.

(* ------------------------------------------------------------------ *)
(** * NumPy: the blend expression and its store *)

Module Np.

(** The common length of two axes under broadcasting. *)
Definition broadcast (m n : Z) : option Z :=
  if m =? n then Some m
  else if m =? 1 then Some n
  else if n =? 1 then Some m
  else None.

(** Whether an axis of length [m] can be stored into one of length [n]. *)
Definition fits (m n : Z) : bool := (m =? n) || (m =? 1).

(** The index into an axis of length [n] that position [k] of the
    broadcast result reads. *)
Definition bidx (n k : Z) : Z := if n =? 1 then 0 else k.

(** [image[i, j] = v] for a vector [v]. *)
Definition set_pixel (image : ndarray) (i j : Z) (v : list Z) : Result ndarray :=
  if Z.of_nat (length v) =? shape2 image then
    Ok {| shape0 := shape0 image; shape1 := shape1 image; shape2 := shape2 image;
          item := fun i' j' c =>
            if (i' =? i) && (j' =? j) then nth (Z.to_nat c) v 0 else item image i' j' c |}
  else Raise (ValueError "could not broadcast input array").

End Np.

Record Coord : Type := mk_coord { coord_h : Z; coord_w : Z }.

(** [alpha = (cell[:, :, 3] / 255.0) * transparency] at one pixel. *)
Definition blend_factor (cell : ndarray) (transparency : Q) (i j : Z) : Q :=
  (inject_Z (item cell i j 3) / 255 * transparency)%Q.

(** [(1 - alpha) * b + alpha * s] at one pixel. *)
Definition blend_value (alpha : Q) (b s : Z) : Q :=
  ((1 - alpha) * inject_Z b + alpha * inject_Z s)%Q.

(** One turn of the channel loop of [_overlay]:
    [background[h:h+cell_h, w:w+cell_w, c] =
       (1 - alpha) * background[h:h+cell_h, w:w+cell_w, c] + alpha * cell[:, :, c]]. *)
Definition blend_channel (cell : ndarray) (coord : Coord) (cell_h cell_w : Z)
    (transparency : Q) (background : ndarray) (c : Z) : Result ndarray :=
  let r0 := Slice.start (shape0 background) (coord_h coord) in
  let rows := Slice.length (shape0 background) (coord_h coord) (coord_h coord + cell_h) in
  let c0 := Slice.start (shape1 background) (coord_w coord) in
  let cols := Slice.length (shape1 background) (coord_w coord) (coord_w coord + cell_w) in
  if shape2 background <=? c then Raise IndexError
  else
    match Np.broadcast (shape0 cell) rows, Np.broadcast (shape1 cell) cols with
    | Some e0, Some e1 =>
        if Np.fits e0 rows && Np.fits e1 cols then
          Ok {| shape0 := shape0 background;
                shape1 := shape1 background;
                shape2 := shape2 background;
                item := fun i j c' =>
                  if (c' =? c) && (r0 <=? i) && (i <? r0 + rows)
                               && (c0 <=? j) && (j <? c0 + cols)
                  then
                    let ci := Np.bidx (shape0 cell) (i - r0) in
                    let cj := Np.bidx (shape1 cell) (j - c0) in
                    Num.to_uint8
                      (blend_value (blend_factor cell transparency ci cj)
                                   (item background i j c) (item cell ci cj c))
                  else item background i j c' |}
        else Raise (ValueError "could not broadcast input array")
    | _, _ => Raise (ValueError "operands could not be broadcast together")
    end.

(** [for c in range(3): ...] over a result. *)
Fixpoint blend_channels (cell : ndarray) (coord : Coord) (cell_h cell_w : Z)
    (transparency : Q) (background : ndarray) (cs : list Z) : Result ndarray :=
  match cs with
  | [] => Ok background
  | c :: cs' =>
      match blend_channel cell coord cell_h cell_w transparency background c with
      | Ok background' =>
          blend_channels cell coord cell_h cell_w transparency background' cs'
      | Raise e => Raise e
      end
  end.

(** Lines 127-142 of [_overlay]: the clipping of the rotated sprite and
    the blend. *)
Definition clip_and_blend (background cell : ndarray) (coord : Coord)
    (cell_h cell_w : Z) (transparency : Q) : Result ndarray :=
  let cell_h :=
    if coord_h coord + cell_h >? shape0 background
    then shape0 background - coord_h coord else cell_h in
  let cell_w :=
    if coord_w coord + cell_w >? shape1 background
    then shape1 background - coord_w coord else cell_w in
  let cell := crop cell cell_h cell_w in
  if shape2 cell =? 4 then
    blend_channels cell coord cell_h cell_w transparency background (range 3)
  else Ok background.

(* ------------------------------------------------------------------ *)
(** * class ImageGenerator *)

Record ImageGenerator : Type := mk_generator {
  img_size : Z * Z;                (* (height, width) *)
  num_imgs : Z;
  min_cells : Z;
  max_cells : Z
}.

(** [os.path.join(save_dir, name)] for a relative [name]. *)
Definition path_join (save_dir name : string) : string :=
  if decide (save_dir = "") then name
  else if decide (String.substring (String.length save_dir - 1) 1 save_dir = "/")
       then save_dir +:+ name
       else save_dir +:+ "/" +:+ name.

(** [f"result_{idx}.png"] *)
Definition result_name (idx : Z) : string := "result_" +:+ pretty idx +:+ ".png".

(** [f"Error: Failed to load image {image_path}"] *)
Definition load_error (image_path : string) : string :=
  "Error: Failed to load image " +:+ image_path.

Section Generator.

Context `{Cv2} {S : Type} `{DatasetLoader S} `{Seeding}.

Local Abbreviation Stmt := (M S).

Definition set_py_rng (g : Rng) : Stmt unit :=
  fun w => (Ok tt, mk_world g (np_rng w) (loader w) (dirs w) (log w)).

Definition set_np_rng (g : Rng) : Stmt unit :=
  fun w => (Ok tt, mk_world (py_rng w) g (loader w) (dirs w) (log w)).

(** [np.random.seed(seed)] accepts the seeds of [[0, 2^32)]. *)
Definition np_seed (seed : Z) : Stmt unit :=
  if (seed <? 0) || (2 ^ 32 <=? seed)
  then raise (ValueError "Seed must be between 0 and 2**32 - 1")
  else set_np_rng (np_random_seed seed).

(** [__init__]; the loader object is the one of the state. *)
Definition init (img_size : Z * Z) (num_imgs min_cells max_cells : Z)
    (seed : option Z) : Stmt ImageGenerator :=
  let self := mk_generator img_size num_imgs min_cells max_cells in
  match seed with
  | Some s => set_py_rng (random_seed s) ;;; np_seed s ;;; ret self
  | None => ret self
  end.

(** [self.dataset_loader.get_random_background()] *)
Definition loader_background : Stmt string :=
  fun w =>
    let '(p, s, g) := get_random_background (loader w) (py_rng w) in
    (Ok p, mk_world g (np_rng w) s (dirs w) (log w ++ [EvBackground p])).

(** [self.dataset_loader.get_random_cell()] *)
Definition loader_cell : Stmt string :=
  fun w =>
    let '(p, s, g) := get_random_cell (loader w) (py_rng w) in
    (Ok p, mk_world g (np_rng w) s (dirs w) (log w ++ [EvCell p])).

Definition _load_image (self : ImageGenerator) (image_path : string)
    (do_resize with_alpha : bool) : Stmt ndarray :=
  let flags := if with_alpha then IMREAD_UNCHANGED else IMREAD_COLOR in
  match imread image_path flags with
  | None =>
      emit (EvImread image_path flags false) ;;;
      raise (ValueError (load_error image_path))
  | Some image =>
      emit (EvImread image_path flags true) ;;;
      if do_resize
      then lift (resize image (snd (img_size self), fst (img_size self)))
      else ret image
  end.

(** The canvas of the rotated sprite, lines 157-158: (new_h, new_w). *)
Definition rotated_size (matrix : Matrix) (cell_h cell_w : Z) : Z * Z :=
  let new_w := Num.int (inject_Z cell_h * Qabs (m01 matrix)
                        + inject_Z cell_w * Qabs (m00 matrix)) in
  let new_h := Num.int (inject_Z cell_h * Qabs (m00 matrix)
                        + inject_Z cell_w * Qabs (m01 matrix)) in
  (new_h, new_w).

Definition _rotate_cell (cell : ndarray) (cell_h cell_w : Z)
    : Stmt (ndarray * Z * Z) :=
  let center := (cell_w / 2, cell_h / 2) in
  angle <- Random.randint 0 360 ;;
  let matrix := getRotationMatrix2D center angle 1 in
  let '(new_h, new_w) := rotated_size matrix cell_h cell_w in
  let matrix :=
    {| m00 := m00 matrix; m01 := m01 matrix;
       m02 := m02 matrix + (inject_Z new_w / 2 - inject_Z (fst center));
       m10 := m10 matrix; m11 := m11 matrix;
       m12 := m12 matrix + (inject_Z new_h / 2 - inject_Z (snd center)) |}%Q in
  rotated <- lift (warpAffine cell matrix (new_w, new_h)) ;;
  ret (rotated, new_h, new_w).

Definition _overlay (self : ImageGenerator) (background cell : ndarray)
    (coord : Coord) (transparency : Q) : Stmt ndarray :=
  u <- Random.uniform (5 # 100) (20 # 100) ;;
  let scale := Num.round2 u in
  let cell_size := Num.int (inject_Z (Num.min2 (img_size self)) * scale) in
  cell <- lift (resize cell (cell_size, cell_size)) ;;
  rotated <- _rotate_cell cell cell_size cell_size ;;
  let '(cell, cell_h, cell_w) := rotated in
  lift (clip_and_blend background cell coord cell_h cell_w transparency).

Definition _generate_cell_coords (self : ImageGenerator) (count : Z)
    : Stmt (list Coord) :=
  collect (range count) (fun _ =>
    h <- Random.randint 0 (fst (img_size self) - Num.percent_of (fst (img_size self))) ;;
    w <- Random.randint 0 (snd (img_size self) - Num.percent_of (snd (img_size self))) ;;
    ret (mk_coord h w)).

(** In Python the array is changed in place; here the changed array is
    returned. *)
Definition noise_image (image : ndarray) (percent : Q) : Stmt ndarray :=
  fold_each (range (shape0 image)) image (fun image i =>
    fold_each (range (shape1 image)) image (fun image j =>
      r <- Random.random ;;
      match (r ?= percent / 100)%Q with
      | Lt => v <- NpRandom.randint 0 256 3 ;; lift (Np.set_pixel image i j v)
      | _ => ret image
      end)).

Definition _apply_random_noise (image : ndarray) : Stmt ndarray :=
  noise_percent <- Random.uniform 1 50 ;;
  noise_image image noise_percent.

(** [coords[i]] for [i] of a [range]. *)
Definition coords_at (coords : list Coord) (i : Z) : Result Coord :=
  match coords !! Z.to_nat i with
  | Some c => Ok c
  | None => Raise IndexError
  end.

Definition _generate_image (self : ImageGenerator) : Stmt ndarray :=
  num_cells_this_img <- Random.randint (min_cells self) (max_cells self) ;;
  coords <- _generate_cell_coords self num_cells_this_img ;;
  path <- loader_background ;;
  background <- _load_image self path true false ;;
  background <- fold_each (range num_cells_this_img) background (fun background i =>
    path <- loader_cell ;;
    cell <- _load_image self path true true ;;
    transparency <- Random.uniform (6 # 10) 1 ;;
    coord <- lift (coords_at coords i) ;;
    _overlay self background cell coord transparency) ;;
  _apply_random_noise background.

(** [os.makedirs(save_dir)] when [save_dir] does not exist. *)
Definition ensure_dir (save_dir : string) : Stmt unit :=
  fun w =>
    if decide (save_dir ∈ dirs w) then (Ok tt, w)
    else (Ok tt, mk_world (py_rng w) (np_rng w) (loader w)
                          ({[ save_dir ]} ∪ dirs w) (log w ++ [EvMakedirs save_dir])).

Definition generate_and_save (self : ImageGenerator) (save_dir : string)
    : Stmt unit :=
  ensure_dir save_dir ;;;
  for_each (range (num_imgs self)) (fun idx =>
    img <- _generate_image self ;;
    emit (EvImwrite (path_join save_dir (result_name idx)) img)).

End Generator.

(* ------------------------------------------------------------------ *)
(** * A reference codec, a scripted loader and a seeding

    Small executable collaborators that meet the contracts above: they
    show the contracts can be met and let the program run on concrete
    inputs. *)

Module Stub.

Definition constant (h w c v : Z) : ndarray :=
  {| shape0 := h; shape1 := w; shape2 := c; item := fun _ _ _ => v |}.

(** The files: a background, a sprite with an alpha channel, a sprite
    without one.  No other path decodes. *)
Definition files (p : string) : option ndarray :=
  if decide (p = "background.png") then Some (constant 2 2 3 10)
  else if decide (p = "cell.png") then
    Some {| shape0 := 2; shape1 := 2; shape2 := 4;
            item := fun _ _ c => if c =? 3 then 255 else 200 |}
  else if decide (p = "opaque.png") then Some (constant 2 2 3 77)
  else None.

(** [IMREAD_COLOR] keeps three channels. *)
Definition imread (p : string) (f : ImreadFlag) : option ndarray :=
  match files p, f with
  | Some a, IMREAD_UNCHANGED => Some a
  | Some a, IMREAD_COLOR =>
      Some {| shape0 := shape0 a; shape1 := shape1 a; shape2 := 3; item := item a |}
  | None, _ => None
  end.

Definition empty (a : ndarray) : bool :=
  (shape0 a <=? 0) || (shape1 a <=? 0).

(** Nearest-neighbour resampling. *)
Definition resize (a : ndarray) (dsize : Z * Z) : Result ndarray :=
  let (w, h) := dsize in
  if (w <=? 0) || (h <=? 0) || empty a then Raise cv2_error
  else Ok {| shape0 := h; shape1 := w; shape2 := shape2 a;
             item := fun i j c => item a (i * shape0 a / h) (j * shape1 a / w) c |}.

(** Bhaskara's rational approximation of the sine of [x] degrees,
    [0 <= x <= 180]. *)
Definition sin180 (x : Z) : Q :=
  (4 * x * (180 - x)) # Z.to_pos (40500 - x * (180 - x)).

Definition sind (x : Z) : Q :=
  let x := x mod 360 in
  if x <=? 180 then sin180 x else (- sin180 (x - 180))%Q.

Definition cosd (x : Z) : Q := sind (x + 90).

Definition getRotationMatrix2D (center : Z * Z) (angle : Z) (scale : Q) : Matrix :=
  let alpha := (scale * cosd angle)%Q in
  let beta := (scale * sind angle)%Q in
  let cx := inject_Z (fst center) in
  let cy := inject_Z (snd center) in
  {| m00 := alpha; m01 := beta; m02 := (1 - alpha) * cx - beta * cy;
     m10 := - beta; m11 := alpha; m12 := beta * cx + (1 - alpha) * cy |}%Q.

(** The source position of a destination pixel under the inverse of
    [m], rounded to the nearest pixel. *)
Definition source_of (m : Matrix) (i j : Z) : option (Z * Z) :=
  let d := (m00 m * m11 m - m01 m * m10 m)%Q in
  if Qeq_bool d 0 then None
  else
    let x := (inject_Z j - m02 m)%Q in
    let y := (inject_Z i - m12 m)%Q in
    let sx := ((m11 m * x - m01 m * y) / d)%Q in
    let sy := ((m00 m * y - m10 m * x) / d)%Q in
    Some (Qfloor (sy + (1 # 2)), Qfloor (sx + (1 # 2))).

(** Items that fall outside the source are 0. *)
Definition warpAffine (a : ndarray) (m : Matrix) (dsize : Z * Z) : Result ndarray :=
  let (w, h) := dsize in
  if (w <=? 0) || (h <=? 0) || empty a then Raise cv2_error
  else Ok {| shape0 := h; shape1 := w; shape2 := shape2 a;
             item := fun i j c =>
               match source_of m i j with
               | Some (si, sj) =>
                   if (0 <=? si) && (si <? shape0 a) && (0 <=? sj) && (sj <? shape1 a)
                   then item a si sj c else 0
               | None => 0
               end |}.

(** A loader that hands out the paths of a script, then its defaults. *)
Record Script : Type := mk_script {
  backgrounds : list string;
  cells : list string
}.

Definition next_background (s : Script) (g : Rng) : string * Script * Rng :=
  match backgrounds s with
  | [] => ("background.png", s, g)
  | p :: ps => (p, mk_script ps (cells s), g)
  end.

Definition next_cell (s : Script) (g : Rng) : string * Script * Rng :=
  match cells s with
  | [] => ("cell.png", s, g)
  | p :: ps => (p, mk_script (backgrounds s) ps, g)
  end.

(** A loader that always hands out the same two files. *)
Definition fixed_background (s : unit) (g : Rng) : string * unit * Rng :=
  ("background.png", s, g).

Definition fixed_cell (s : unit) (g : Rng) : string * unit * Rng :=
  ("cell.png", s, g).

(** A tape of 53-bit words: the high bits of a multiplicative hash of
    the position. *)
Definition lcg (seed : Z) (k : Z) : Rng :=
  {| tape := fun n =>
       Z.to_N ((((Z.abs seed + Z.of_nat n + k + 1) * 6364136223846793005
                 + 1442695040888963407) mod 2 ^ 64) / 2 ^ 11);
     pos := 0 |}.

(** A fresh interpreter: nothing on disk, nothing asked yet. *)
Definition fresh {S : Type} (seed : Z) (loader : S) : World S :=
  mk_world (lcg seed 0) (lcg seed 7) loader ∅ [].

End Stub.

(* ------------------------------------------------------------------ *)
(** * The vocabulary of the properties *)

(** The images written so far, in order. *)
Definition written (evs : list Event) : list ndarray :=
  omap (fun ev => match ev with EvImwrite _ img => Some img | _ => None end) evs.

(** The first item of the first row of the first image written. *)
Definition first_item {S : Type} (w : World S) : option Z :=
  match written (log w) with
  | img :: _ => Some (item img 0 0 0)
  | [] => None
  end.

(** The rows (or columns) the sprite keeps once it is clipped at the far
    edge of an axis of length [len]. *)
Definition clipped (len offset size : Z) : Z :=
  if offset + size >? len then len - offset else size.

(** Whether the item [(i, j)] lies in the window of [rows] x [cols]
    items anchored at [coord]. *)
Definition in_window (coord : Coord) (rows cols i j : Z) : bool :=
  (coord_h coord <=? i) && (i <? coord_h coord + rows)
  && (coord_w coord <=? j) && (j <? coord_w coord + cols).

(** The value the blend stores at [(i, j, c)] of the window. *)
Definition blended (background cell : ndarray) (coord : Coord) (transparency : Q)
    (i j c : Z) : Z :=
  let ci := i - coord_h coord in
  let cj := j - coord_w coord in
  Num.to_uint8 (blend_value (blend_factor cell transparency ci cj)
                            (item background i j c) (item cell ci cj c)).

(** The extent of the rotated sprite along the two axes, before [int]
    cuts it: (height, width). *)
Definition rotated_extent (matrix : Matrix) (cell_h cell_w : Z) : Q * Q :=
  ((inject_Z cell_h * Qabs (m00 matrix) + inject_Z cell_w * Qabs (m01 matrix))%Q,
   (inject_Z cell_h * Qabs (m01 matrix) + inject_Z cell_w * Qabs (m00 matrix))%Q).

(** [b] has the shape of [a], and is an 8-bit array if [a] is. *)
Definition keeps (a b : ndarray) : Prop :=
  shape0 b = shape0 a /\ shape1 b = shape1 a /\ shape2 b = shape2 a
  /\ (uint8_array a -> uint8_array b).

(** The placements [_generate_cell_coords] can hand out. *)
Definition placement_in_range (self : ImageGenerator) (c : Coord) : Prop :=
  0 <= coord_h c <= fst (img_size self) - Num.percent_of (fst (img_size self))
  /\ 0 <= coord_w c <= snd (img_size self) - Num.percent_of (snd (img_size self)).

(** Every path the loader hands out decodes. *)
Definition loader_decodes `{Cv2} {S : Type} `{DatasetLoader S} : Prop :=
  (forall s g, is_Some (imread (get_random_background s g).1.1 IMREAD_COLOR))
  /\ (forall s g, is_Some (imread (get_random_cell s g).1.1 IMREAD_UNCHANGED)).

(** An image of the configured size with three 8-bit channels. *)
Definition well_formed (self : ImageGenerator) (img : ndarray) : Prop :=
  has_shape img (fst (img_size self)) (snd (img_size self)) 3 /\ uint8_array img.

(** The body of the loop of [generate_and_save]. *)
Definition save_one `{Cv2} {S : Type} `{DatasetLoader S}
    (self : ImageGenerator) (save_dir : string) (idx : Z) : M S unit :=
  img <- _generate_image self ;;
  emit (EvImwrite (path_join save_dir (result_name idx)) img).

(** The body of the comprehension of [_generate_cell_coords]. *)
Definition sample_coord {S : Type} (self : ImageGenerator) : M S Coord :=
  h <- Random.randint 0 (fst (img_size self) - Num.percent_of (fst (img_size self))) ;;
  w <- Random.randint 0 (snd (img_size self) - Num.percent_of (snd (img_size self))) ;;
  ret (mk_coord h w).

(** One run: the generator is constructed, then asked for its batch. *)
Definition run_generator `{Cv2} {S : Type} `{DatasetLoader S} `{Seeding}
    (img_size : Z * Z) (num_imgs min_cells max_cells : Z) (seed : option Z)
    (save_dir : string) : M S unit :=
  self <- init img_size num_imgs min_cells max_cells seed ;;
  generate_and_save self save_dir.

(** The state [w] with the generator of [random] replaced. *)
Definition with_py_rng {S : Type} (w : World S) (g : Rng) : World S :=
  mk_world g (np_rng w) (loader w) (dirs w) (log w).

(** The raw words that make [_generate_cell_coords] return [coords]. *)
Definition words_of (coords : list Coord) : list N :=
  flat_map (fun c => [Z.to_N (coord_h c); Z.to_N (coord_w c)]) coords.

Definition replay (words : list N) : Rng :=
  {| tape := fun n => nth n words 0%N; pos := 0 |}.

(** [m] returns, its value satisfies [P], and it writes no image. *)
Definition returns {S A : Type} (m : M S A) (P : A -> Prop) : Prop :=
  forall w, exists a w',
    m w = (Ok a, w') /\ P a /\ written (log w') = written (log w).

(** Whenever [m] returns, its value satisfies [P]. *)
Definition yields {S A : Type} (m : M S A) (P : A -> Prop) : Prop :=
  forall w a w', m w = (Ok a, w') -> P a.

(** Whether the codec decodes the file at [p] under the flag [f]. *)
Definition decodes `{Cv2} (p : string) (f : ImreadFlag) : bool :=
  match imread p f with Some _ => true | None => false end.

(** A failed load is the last thing that happens, and the statement
    raises the error that names its path. *)
Definition failed_load_last {A : Type} (r : Result A) (evs : list Event) : Prop :=
  forall pre p f suf,
    evs = pre ++ EvImread p f false :: suf ->
    suf = [] /\ r = Raise (ValueError (load_error p)).

(** A path handed out by the loader is read at once: a background as
    a colour image, a sprite as it is. *)
Definition loads_follow `{Cv2} (evs : list Event) : Prop :=
  (forall pre p suf,
      evs = pre ++ EvBackground p :: suf ->
      exists suf', suf = EvImread p IMREAD_COLOR (decodes p IMREAD_COLOR) :: suf')
  /\ (forall pre p suf,
      evs = pre ++ EvCell p :: suf ->
      exists suf', suf = EvImread p IMREAD_UNCHANGED (decodes p IMREAD_UNCHANGED) :: suf').

(** [m] appends to the log a run of events in which every path handed
    out is read at once and a failed load comes last. *)
Definition obeys `{Cv2} {S A : Type} (m : M S A) : Prop :=
  forall w, exists evs,
    log (snd (m w)) = log w ++ evs
    /\ failed_load_last (fst (m w)) evs
    /\ loads_follow evs.

(** [m] asks nothing. *)
Definition quiet {S A : Type} (m : M S A) : Prop :=
  forall w, log (snd (m w)) = log w.

(** An event that is neither a request to the loader nor a load. *)
Definition plain (ev : Event) : Prop :=
  match ev with
  | EvMakedirs _ | EvImwrite _ _ => True
  | _ => False
  end.

(** A request to the loader, or a load. *)
Definition is_request (ev : Event) : Prop :=
  match ev with
  | EvBackground _ | EvCell _ | EvImread _ _ _ => True
  | _ => False
  end.

(** [m] appends to the log nothing but requests and loads, and leaves
    the directories alone, whether it returns or raises. *)
Definition asks_only {S A : Type} (m : M S A) : Prop :=
  forall w, exists evs,
    log (snd (m w)) = log w ++ evs
    /\ Forall is_request evs
    /\ dirs (snd (m w)) = dirs w.

(** The paths [cv2.imwrite] was called with so far, in order. *)
Definition written_paths (evs : list Event) : list string :=
  omap (fun ev => match ev with EvImwrite p _ => Some p | _ => None end) evs.

(** The path [generate_and_save] writes the image [idx] to. *)
Definition result_path (save_dir : string) (idx : Z) : string :=
  path_join save_dir (result_name idx).




(** The body of the inner loop of [noise_image]: the pixel [(i, j)]. *)
Definition noise_at {S : Type} (percent : Q) (i : Z) (image : ndarray) (j : Z)
    : M S ndarray :=
  r <- Random.random ;;
  match (r ?= percent / 100)%Q with
  | Lt => v <- NpRandom.randint 0 256 3 ;; lift (Np.set_pixel image i j v)
  | _ => ret image
  end.

(** The state [w] after [n] more words of [random] were taken. *)
Definition advance_py {S : Type} (w : World S) (n : nat) : World S :=
  mk_world (mk_rng (tape (py_rng w)) (pos (py_rng w) + n))
           (np_rng w) (loader w) (dirs w) (log w).

(** The state [w] after [n] more words of [numpy.random] were taken. *)
Definition advance_np {S : Type} (w : World S) (n : nat) : World S :=
  mk_world (py_rng w) (mk_rng (tape (np_rng w)) (pos (np_rng w) + n))
           (loader w) (dirs w) (log w).

(** The [k]-th value [np.random.randint(0, 256)] is going to return. *)
Definition np_byte (g : Rng) (k : Z) : Z :=
  0 + Z.of_N (tape g (pos g + Z.to_nat k)) mod (256 - 0).

(** The [k]-th triple [np.random.randint(0, 256, size=3)] is going to
    return. *)
Definition noise_triple (g : Rng) (k : Z) : list Z :=
  [np_byte g (3 * k); np_byte g (3 * k + 1); np_byte g (3 * k + 2)].

(** The float [random.random()] is going to return. *)
Definition next_unit (g : Rng) : Q :=
  (Z.of_N (tape g (pos g)) mod 2 ^ 53 # 2 ^ 53)%Q.

(** The matrix of a rotation by 90 degrees about (5, 2), scale 1, as
    OpenCV returns it: in double precision the cosine of 90 degrees is
    4967757600021511 / 2^106 (about 6.1e-17), not zero; the sine is 1. *)
Definition rotation_90_about_5_2 : Matrix :=
  let alpha := (4967757600021511 # 2 ^ 106)%Q in
  let beta := 1%Q in
  {| m00 := alpha; m01 := beta; m02 := (1 - alpha) * 5 - beta * 2;
     m10 := - beta; m11 := alpha; m12 := beta * 5 + (1 - alpha) * 2 |}%Q.

(** The default configuration of the constructor. *)
Definition default_generator : ImageGenerator := mk_generator (480, 640) 5 5 25.

(** The matrix OpenCV returns for a rotation by 45 degrees about (5, 5),
    scale 1: its entries are the cosine and the sine of 45 degrees in
    double precision, 0.7071067811865476 and 0.7071067811865475. *)
Definition rotation_45_about_5_5 : Matrix :=
  let alpha := (6369051672525773 # 2 ^ 53)%Q in
  let beta := (6369051672525772 # 2 ^ 53)%Q in
  {| m00 := alpha; m01 := beta; m02 := (1 - alpha) * 5 - beta * 5;
     m10 := - beta; m11 := alpha; m12 := beta * 5 + (1 - alpha) * 5 |}%Q.

(* ------------------------------------------------------------------ *)
(** * The reference collaborators meet their contracts *)

Lemma scaled_index_in_range (i n m : Z) :
  0 <= i < m -> 0 < n -> 0 <= i * n / m < n.
Proof.
  intros Hi Hn. split.
  - apply Z.div_pos; nia.
  - apply Z.div_lt_upper_bound; nia.
Qed.

Lemma stub_files_shape (p : string) (a : ndarray) :
  Stub.files p = Some a ->
  shape0 a = 2 /\ shape1 a = 2 /\ (shape2 a = 3 \/ shape2 a = 4) /\ uint8_array a.
Proof.
  unfold Stub.files. intros Hf.
  repeat case_decide; simplify_eq; cbn;
    (split; [reflexivity|]); (split; [reflexivity|]); (split; [lia|]);
    intros i j c _ _ _; cbn; try lia; destruct (c =? 3); lia.
Qed.

Lemma stub_rotation_table :
  forallb (fun k => Qle_bool 1 (Qabs (1 * Stub.cosd k) + Qabs (1 * Stub.sind k)))
          (seqZ 0 360) = true.
Proof. vm_compute. reflexivity. Qed.

Lemma stub_sind_mod (x : Z) : Stub.sind (x mod 360) = Stub.sind x.
Proof. unfold Stub.sind. rewrite Z.mod_mod by lia. reflexivity. Qed.

Lemma stub_cosd_mod (x : Z) : Stub.cosd (x mod 360) = Stub.cosd x.
Proof.
  unfold Stub.cosd, Stub.sind. rewrite Zplus_mod_idemp_l. reflexivity.
Qed.

Lemma stub_rotation_unit (angle : Z) :
  (1 <= Qabs (1 * Stub.cosd angle) + Qabs (1 * Stub.sind angle))%Q.
Proof.
  rewrite <- stub_sind_mod, <- stub_cosd_mod.
  pose proof stub_rotation_table as Ht.
  rewrite forallb_forall in Ht.
  apply Qle_bool_iff, Ht, list_elem_of_In, elem_of_seqZ.
  pose proof (Z.mod_pos_bound angle 360). lia.
Qed.

#[export] Program Instance stub_cv2 : Cv2 := {|
  imread := Stub.imread;
  resize := Stub.resize;
  getRotationMatrix2D := Stub.getRotationMatrix2D;
  warpAffine := Stub.warpAffine
|}.
Next Obligation.
  intros p a. unfold Stub.imread.
  destruct (Stub.files p) as [b|] eqn:Hb; [|discriminate].
  destruct (stub_files_shape _ _ Hb) as (H0 & H1 & H2 & Hu).
  intros; simplify_eq. split; [reflexivity|].
  intros i j c Hi Hj Hc. cbn in *. apply Hu; lia.
Qed.
Next Obligation.
  intros p f a. unfold Stub.imread.
  destruct (Stub.files p) as [b|] eqn:Hb; [|destruct f; discriminate].
  destruct (stub_files_shape _ _ Hb) as (H0 & H1 & H2 & _).
  destruct f; intros; simplify_eq; cbn; lia.
Qed.
Next Obligation.
  intros a w h Ha0 Ha1 Hw Hh. unfold Stub.resize, Stub.empty.
  destruct (w <=? 0) eqn:?; [lia|]. destruct (h <=? 0) eqn:?; [lia|].
  destruct (shape0 a <=? 0) eqn:?; [lia|]. destruct (shape1 a <=? 0) eqn:?; [lia|].
  cbn. eexists. split; [reflexivity|]. split; [done|].
  intros Hu i j c Hi Hj Hc. cbn in *.
  apply Hu; auto using scaled_index_in_range.
Qed.
Next Obligation.
  intros a w h Hwh. unfold Stub.resize.
  destruct (w <=? 0) eqn:?; destruct (h <=? 0) eqn:?; cbn; try reflexivity; lia.
Qed.
Next Obligation.
  intros center angle. cbn. apply stub_rotation_unit.
Qed.
Next Obligation.
  intros a m w h Ha0 Ha1 Hw Hh. unfold Stub.warpAffine, Stub.empty.
  destruct (w <=? 0) eqn:?; [lia|]. destruct (h <=? 0) eqn:?; [lia|].
  destruct (shape0 a <=? 0) eqn:?; [lia|]. destruct (shape1 a <=? 0) eqn:?; [lia|].
  cbn. eexists. split; [reflexivity|]. split; [done|].
  intros Hu i j c Hi Hj Hc. cbn in *.
  destruct (Stub.source_of m i j) as [[si sj]|]; [|lia].
  destruct ((0 <=? si) && (si <? shape0 a) && (0 <=? sj) && (sj <? shape1 a)) eqn:Hin; [|lia].
  apply Hu; lia.
Qed.

#[export] Instance stub_loader : DatasetLoader Stub.Script := {|
  get_random_background := Stub.next_background;
  get_random_cell := Stub.next_cell
|}.

#[export] Instance fixed_loader : DatasetLoader unit := {|
  get_random_background := Stub.fixed_background;
  get_random_cell := Stub.fixed_cell
|}.

#[export] Instance stub_seeding : Seeding := {|
  random_seed := fun s => Stub.lcg s 0;
  np_random_seed := fun s => Stub.lcg s 7
|}.

(** The fixed loader only hands out files that decode. *)
Lemma fixed_loader_decodes : @loader_decodes stub_cv2 unit fixed_loader.
Proof. split; intros s g; eexists; reflexivity. Qed.

(* ------------------------------------------------------------------ *)
(** * Slices and the blend, inside the background *)

Lemma clamp_inside (len k : Z) : 0 <= k <= len -> Slice.clamp len k = k.
Proof. unfold Slice.clamp. intros Hk. destruct (k <? 0) eqn:E; lia. Qed.

Lemma slice_length_inside (len lo n : Z) :
  0 <= lo -> 0 <= n -> lo + n <= len -> Slice.length len lo (lo + n) = n.
Proof.
  intros Hlo Hn Hle. unfold Slice.length.
  rewrite !clamp_inside by lia. lia.
Qed.

Lemma prefix_length_inside (len n : Z) :
  0 <= n <= len -> Slice.prefix_length len n = n.
Proof.
  intros Hn. unfold Slice.prefix_length.
  replace n with (0 + n) at 1 by lia. apply slice_length_inside; lia.
Qed.

Lemma clipped_min (len offset size : Z) :
  clipped len offset size = Z.min size (len - offset).
Proof. unfold clipped. destruct (offset + size >? len) eqn:E; lia. Qed.

Lemma bidx_inside (n k : Z) : 0 <= k < n -> Np.bidx n k = k.
Proof. unfold Np.bidx. intros Hk. destruct (n =? 1) eqn:E; lia. Qed.

Lemma blend_channel_inside (cell : ndarray) (coord : Coord) (cell_h cell_w : Z)
    (transparency : Q) (background : ndarray) (c : Z) :
  0 <= coord_h coord -> 0 <= cell_h -> coord_h coord + cell_h <= shape0 background ->
  0 <= coord_w coord -> 0 <= cell_w -> coord_w coord + cell_w <= shape1 background ->
  shape0 cell = cell_h -> shape1 cell = cell_w ->
  c < shape2 background ->
  exists background',
    blend_channel cell coord cell_h cell_w transparency background c = Ok background'
    /\ shape0 background' = shape0 background
    /\ shape1 background' = shape1 background
    /\ shape2 background' = shape2 background
    /\ forall i j c',
         item background' i j c' =
         if (c' =? c) && in_window coord cell_h cell_w i j
         then blended background cell coord transparency i j c
         else item background i j c'.
Proof.
  intros Hh Hch Hhe Hw Hcw Hwe Hs0 Hs1 Hc. unfold blend_channel, Slice.start.
  rewrite !slice_length_inside, !clamp_inside by lia.
  destruct (shape2 background <=? c) eqn:Ec; [lia|].
  rewrite Hs0, Hs1. unfold Np.broadcast, Np.fits. rewrite !Z.eqb_refl. cbn.
  eexists. split; [reflexivity|]. cbn. repeat split.
  intros i j c'. unfold in_window, blended.
  destruct (c' =? c) eqn:Ecc; cbn; [|reflexivity].
  destruct (coord_h coord <=? i) eqn:E1; cbn; [|reflexivity].
  destruct (i <? coord_h coord + cell_h) eqn:E2; cbn; [|reflexivity].
  destruct (coord_w coord <=? j) eqn:E3; cbn; [|reflexivity].
  destruct (j <? coord_w coord + cell_w) eqn:E4; cbn; [|reflexivity].
  rewrite !bidx_inside by lia. reflexivity.
Qed.

Lemma blend_channels_inside (cell : ndarray) (coord : Coord) (cell_h cell_w : Z)
    (transparency : Q) (background : ndarray) :
  0 <= coord_h coord -> 0 <= cell_h -> coord_h coord + cell_h <= shape0 background ->
  0 <= coord_w coord -> 0 <= cell_w -> coord_w coord + cell_w <= shape1 background ->
  shape0 cell = cell_h -> shape1 cell = cell_w ->
  3 <= shape2 background ->
  exists background',
    blend_channels cell coord cell_h cell_w transparency background (range 3)
      = Ok background'
    /\ shape0 background' = shape0 background
    /\ shape1 background' = shape1 background
    /\ shape2 background' = shape2 background
    /\ forall i j c,
         item background' i j c =
         if (0 <=? c) && (c <? 3) && in_window coord cell_h cell_w i j
         then blended background cell coord transparency i j c
         else item background i j c.
Proof.
  intros Hh Hch Hhe Hw Hcw Hwe Hs0 Hs1 Hc.
  change (range 3) with [0; 1; 2]. cbn [blend_channels].
  destruct (blend_channel_inside cell coord cell_h cell_w transparency background 0)
    as (b0 & -> & H00 & H01 & H02 & Hi0); try lia.
  destruct (blend_channel_inside cell coord cell_h cell_w transparency b0 1)
    as (b1 & -> & H10 & H11 & H12 & Hi1); try lia.
  destruct (blend_channel_inside cell coord cell_h cell_w transparency b1 2)
    as (b2 & -> & H20 & H21 & H22 & Hi2); try lia.
  exists b2. split; [reflexivity|]. repeat split; try congruence.
  intros i j c. rewrite Hi2.
  destruct (in_window coord cell_h cell_w i j) eqn:Ewin;
    rewrite ?andb_false_r, ?andb_true_r.
  - destruct (c =? 2) eqn:E2.
    { replace c with 2 by lia. unfold blended. rewrite Hi1, Hi0. reflexivity. }
    rewrite Hi1, Ewin, andb_true_r.
    destruct (c =? 1) eqn:E1.
    { replace c with 1 by lia. unfold blended. rewrite Hi0. reflexivity. }
    rewrite Hi0, Ewin, andb_true_r.
    destruct (c =? 0) eqn:E0.
    { replace c with 0 by lia. reflexivity. }
    destruct (0 <=? c) eqn:?; destruct (c <? 3) eqn:?; cbn; try reflexivity; lia.
  - rewrite Hi1, Ewin, andb_false_r, Hi0, Ewin, andb_false_r. reflexivity.
Qed.

Lemma crop_shape (cell : ndarray) (rows cols : Z) :
  0 <= rows <= shape0 cell -> 0 <= cols <= shape1 cell ->
  shape0 (crop cell rows cols) = rows /\ shape1 (crop cell rows cols) = cols.
Proof. intros Hr Hc. cbn. rewrite !prefix_length_inside by lia. done. Qed.

(** The blend of lines 127-142 for a placement inside the background:
    it succeeds, keeps the shape, and changes the three colour channels
    of the clipped window only. *)
Lemma clip_and_blend_inside (background cell : ndarray) (coord : Coord)
    (cell_h cell_w : Z) (transparency : Q) :
  shape0 cell = cell_h -> shape1 cell = cell_w -> 0 <= cell_h -> 0 <= cell_w ->
  0 <= coord_h coord <= shape0 background ->
  0 <= coord_w coord <= shape1 background ->
  3 <= shape2 background ->
  exists background',
    clip_and_blend background cell coord cell_h cell_w transparency = Ok background'
    /\ shape0 background' = shape0 background
    /\ shape1 background' = shape1 background
    /\ shape2 background' = shape2 background
    /\ forall i j c,
         item background' i j c =
         if (shape2 cell =? 4) && ((0 <=? c) && (c <? 3))
            && in_window coord (clipped (shape0 background) (coord_h coord) cell_h)
                               (clipped (shape1 background) (coord_w coord) cell_w) i j
         then blended background cell coord transparency i j c
         else item background i j c.
Proof.
  intros Hs0 Hs1 Hch Hcw Hh Hw Hc. unfold clip_and_blend.
  fold (clipped (shape0 background) (coord_h coord) cell_h).
  fold (clipped (shape1 background) (coord_w coord) cell_w).
  set (rows := clipped (shape0 background) (coord_h coord) cell_h).
  set (cols := clipped (shape1 background) (coord_w coord) cell_w).
  assert (Hrows : 0 <= rows <= cell_h /\ coord_h coord + rows <= shape0 background)
    by (unfold rows; rewrite clipped_min; lia).
  assert (Hcols : 0 <= cols <= cell_w /\ coord_w coord + cols <= shape1 background)
    by (unfold cols; rewrite clipped_min; lia).
  change (shape2 (crop cell rows cols)) with (shape2 cell).
  destruct (shape2 cell =? 4) eqn:E4; cbn [andb].
  - destruct (crop_shape cell rows cols) as [Hc0 Hc1]; [lia..|].
    destruct (blend_channels_inside (crop cell rows cols) coord rows cols
                transparency background) as (b & Hb & Hb0 & Hb1 & Hb2 & Hbi); try lia.
    exists b. split; [exact Hb|]. do 3 (split; [assumption|]).
    intros i j c. rewrite Hbi. reflexivity.
  - exists background. do 4 (split; [reflexivity|]). reflexivity.
Qed.

(** The items of the blended background, in and out of the window. *)
Lemma blend_window_frame (background cell : ndarray) (coord : Coord)
    (cell_h cell_w : Z) (transparency : Q) :
  shape0 cell = cell_h -> shape1 cell = cell_w -> 0 <= cell_h -> 0 <= cell_w ->
  0 <= coord_h coord <= shape0 background ->
  0 <= coord_w coord <= shape1 background ->
  3 <= shape2 background ->
  let rows := clipped (shape0 background) (coord_h coord) cell_h in
  let cols := clipped (shape1 background) (coord_w coord) cell_w in
  exists background',
    clip_and_blend background cell coord cell_h cell_w transparency = Ok background'
    /\ (forall i j c,
          item background' i j c =
          if (shape2 cell =? 4) && ((0 <=? c) && (c <? 3)) && in_window coord rows cols i j
          then blended background cell coord transparency i j c
          else item background i j c)
    /\ (forall i j c,
          ~ (coord_h coord <= i < coord_h coord + rows
             /\ coord_w coord <= j < coord_w coord + cols
             /\ 0 <= c < 3) ->
          item background' i j c = item background i j c).
Proof.
  intros Hs0 Hs1 Hch Hcw Hh Hw Hc rows cols.
  destruct (clip_and_blend_inside background cell coord cell_h cell_w transparency)
    as (b & Eb & B0 & B1 & B2 & Hitem); try assumption.
  fold rows cols in Hitem.
  exists b. split; [exact Eb|]. split; [exact Hitem|].
  intros i j c Hout. rewrite Hitem. unfold in_window.
  destruct (shape2 cell =? 4); cbn [andb]; [|reflexivity].
  destruct (0 <=? c) eqn:?; destruct (c <? 3) eqn:?; cbn [andb]; try reflexivity.
  destruct (coord_h coord <=? i) eqn:?; destruct (i <? coord_h coord + rows) eqn:?;
    destruct (coord_w coord <=? j) eqn:?; destruct (j <? coord_w coord + cols) eqn:?;
    cbn [andb]; try reflexivity.
  exfalso. apply Hout. lia.
Qed.

(** What the store into the 8-bit array keeps of a value of [[0, 256)]. *)
Lemma to_uint8_floor (x : Q) :
  (0 <= x)%Q -> (x < 256)%Q -> Num.to_uint8 x = Qfloor x.
Proof.
  intros H0 H256. unfold Num.to_uint8, Num.int.
  assert (Hn : 0 <= Qnum x) by (destruct x as [n d]; unfold Qle in H0; cbn in *; lia).
  rewrite Z.quot_div_nonneg by lia.
  change (Qnum x / Z.pos (Qden x)) with (Qfloor (Qnum x # Qden x)).
  assert (Hx : Qfloor (Qnum x # Qden x) = Qfloor x) by (destruct x; reflexivity).
  rewrite Hx.
  assert (0 <= Qfloor x).
  { change 0 with (Qfloor 0). apply Qfloor_resp_le. exact H0. }
  assert (Qfloor x < 256).
  { rewrite Zlt_Qlt. eapply Qle_lt_trans; [apply Qfloor_le|exact H256]. }
  apply Z.mod_small. lia.
Qed.

Lemma to_uint8_range (x : Q) : 0 <= Num.to_uint8 x <= 255.
Proof.
  unfold Num.to_uint8. pose proof (Z.mod_pos_bound (Num.int x) 256). lia.
Qed.

Lemma inject_Z_range (n lo hi : Z) :
  lo <= n <= hi -> (inject_Z lo <= inject_Z n /\ inject_Z n <= inject_Z hi)%Q.
Proof. intros [Hl Hh]. split; rewrite <- Zle_Qle; assumption. Qed.



(* ------------------------------------------------------------------ *)
(** * Reasoning about statements *)

Section Logic.

Context {S : Type}.

Lemma returns_ret {A} (a : A) (P : A -> Prop) : P a -> returns (ret a : M S A) P.
Proof. intros HP w. exists a, w. done. Qed.

Lemma returns_bind {A B} (m : M S A) (k : A -> M S B) (P : A -> Prop) (Q : B -> Prop) :
  returns m P -> (forall a, P a -> returns (k a) Q) -> returns (bind m k) Q.
Proof.
  intros Hm Hk w. destruct (Hm w) as (a & w1 & E1 & Ha & L1).
  destruct (Hk a Ha w1) as (b & w2 & E2 & Hb & L2).
  exists b, w2. unfold bind. rewrite E1, E2. split; [done|]. split; [done|].
  congruence.
Qed.

Lemma returns_lift {A} (r : Result A) (a : A) (P : A -> Prop) :
  r = Ok a -> P a -> returns (lift r : M S A) P.
Proof. intros -> HP w. exists a, w. done. Qed.

Lemma returns_weaken {A} (m : M S A) (P Q : A -> Prop) :
  returns m P -> (forall a, P a -> Q a) -> returns m Q.
Proof.
  intros Hm HPQ w. destruct (Hm w) as (a & w' & E & Ha & L). exists a, w'. auto.
Qed.

Lemma returns_fold_each {A B} (l : list A) (body : B -> A -> M S B) (I : B -> Prop) :
  (forall acc x, x ∈ l -> I acc -> returns (body acc x) I) ->
  forall acc, I acc -> returns (fold_each l acc body) I.
Proof.
  induction l as [|x l IH]; intros Hbody acc Hacc; cbn [fold_each].
  - by apply returns_ret.
  - eapply returns_bind.
    + apply Hbody; [left|assumption].
    + intros acc' Hacc'. apply IH; [|assumption].
      intros ? ? ?. apply Hbody. by right.
Qed.

Lemma returns_collect {A B} (l : list A) (body : A -> M S B) (P : B -> Prop) :
  (forall x, x ∈ l -> returns (body x) P) ->
  returns (collect l body) (fun ys => length ys = length l /\ Forall P ys).
Proof.
  induction l as [|x l IH]; intros Hbody; cbn [collect].
  - apply returns_ret. split; [reflexivity|constructor].
  - eapply returns_bind; [apply Hbody; left|]. intros y Hy.
    eapply returns_bind; [apply IH; intros; apply Hbody; by right|].
    intros ys [Hlen Hys]. apply returns_ret. cbn. split; [congruence|by constructor].
Qed.

Lemma yields_ret {A} (a : A) (P : A -> Prop) : P a -> yields (ret a : M S A) P.
Proof. intros HP w a' w' E. unfold ret in E. by simplify_eq. Qed.

Lemma yields_bind {A B} (m : M S A) (k : A -> M S B) (P : A -> Prop) (Q : B -> Prop) :
  yields m P -> (forall a, P a -> yields (k a) Q) -> yields (bind m k) Q.
Proof.
  intros Hm Hk w b w2 E. unfold bind in E.
  destruct (m w) as [[a|e] w1] eqn:E1; [|discriminate].
  eapply Hk; [|exact E]. eapply Hm. exact E1.
Qed.

Lemma yields_lift {A} (r : Result A) (P : A -> Prop) :
  (forall a, r = Ok a -> P a) -> yields (lift r : M S A) P.
Proof. intros HP w a w' E. unfold lift in E. simplify_eq. by apply HP. Qed.

Lemma yields_any {A} (m : M S A) : yields m (fun _ => True).
Proof. by intros w a w' _. Qed.

Lemma yields_fold_each {A B} (l : list A) (body : B -> A -> M S B) (I : B -> Prop) :
  (forall acc x, I acc -> yields (body acc x) I) ->
  forall acc, I acc -> yields (fold_each l acc body) I.
Proof.
  intros Hbody. induction l as [|x l IH]; intros acc Hacc; cbn [fold_each].
  - by apply yields_ret.
  - eapply yields_bind; [by apply Hbody|]. intros acc' Hacc'. by apply IH.
Qed.

(** A returning statement yields what it returns. *)
Lemma returns_yields {A} (m : M S A) (P : A -> Prop) : returns m P -> yields m P.
Proof.
  intros Hm w a w' E. destruct (Hm w) as (a' & w'' & E' & Ha & _).
  rewrite E in E'. by simplify_eq.
Qed.

End Logic.

(* ------------------------------------------------------------------ *)
(** * The conversions *)

Lemma int_floor (x : Q) : (0 <= x)%Q -> Num.int x = Qfloor x.
Proof.
  intros H0. unfold Num.int.
  assert (Hn : 0 <= Qnum x) by (destruct x as [n d]; unfold Qle in H0; cbn in *; lia).
  rewrite Z.quot_div_nonneg by lia. destruct x; reflexivity.
Qed.

Lemma int_inject_Z (n : Z) : Num.int (inject_Z n) = n.
Proof. unfold Num.int. cbn. apply Z.quot_1_r. Qed.

Lemma int_mono (x y : Q) : (0 <= x)%Q -> (x <= y)%Q -> Num.int x <= Num.int y.
Proof.
  intros H0 Hxy. rewrite !int_floor; [|eapply Qle_trans; eassumption|assumption].
  by apply Qfloor_resp_le.
Qed.

(** [int] of a non-negative float is its integer part. *)
Lemma int_bounds (x : Q) :
  (0 <= x)%Q -> (inject_Z (Num.int x) <= x /\ x < inject_Z (Num.int x) + 1)%Q.
Proof.
  intros H0. rewrite int_floor by assumption. split; [apply Qfloor_le|].
  pose proof (Qlt_floor x) as Hlt. rewrite inject_Z_plus in Hlt. exact Hlt.
Qed.

(** [int] of a float below one is not positive. *)
Lemma int_below_one (x : Q) : (x < 1)%Q -> Num.int x <= 0.
Proof.
  destruct x as [n d]. unfold Qlt, Num.int. cbn [Qnum Qden]. intros Hlt.
  destruct (Z_lt_le_dec n 0) as [Hneg|Hpos].
  - replace n with (- - n) by lia. rewrite Z.quot_opp_l by lia.
    pose proof (Z.quot_pos (- n) (Z.pos d)). lia.
  - rewrite Z.quot_small; lia.
Qed.

Lemma percent_of_quot (n : Z) : Num.percent_of n = Z.quot n 100.
Proof. unfold Num.percent_of, Num.int. cbn. by rewrite Z.mul_1_r. Qed.

Lemma percent_of_range (n : Z) : 0 <= n -> 0 <= Num.percent_of n <= n.
Proof.
  intros Hn. rewrite percent_of_quot, Z.quot_div_nonneg by lia.
  split; [apply Z.div_pos; lia|]. apply Z.div_le_upper_bound; lia.
Qed.

Lemma round_half_even_lower (x : Q) (n : Z) :
  (inject_Z n <= x)%Q -> n <= Num.round_half_even x.
Proof.
  intros Hn. unfold Num.round_half_even.
  assert (n <= Qfloor x).
  { rewrite <- (Qfloor_Z n). by apply Qfloor_resp_le. }
  destruct (x - inject_Z (Qfloor x) ?= 1 # 2)%Q; [destruct (Z.even _)|..]; lia.
Qed.

Lemma round_half_even_upper (x : Q) (n : Z) :
  (x <= inject_Z n)%Q -> Num.round_half_even x <= n.
Proof.
  intros Hn. unfold Num.round_half_even.
  assert (Hf : Qfloor x <= n).
  { rewrite <- (Qfloor_Z n). by apply Qfloor_resp_le. }
  destruct (Z.eq_dec (Qfloor x) n) as [E|E].
  - assert (Hlt : (x - inject_Z (Qfloor x) < 1 # 2)%Q).
    { rewrite E. apply Qle_lt_trans with 0%Q; [|reflexivity].
      unfold Qminus. rewrite <- (Qplus_opp_r (inject_Z n)).
      apply Qplus_le_compat; [assumption|apply Qle_refl]. }
    assert (Hc : (x - inject_Z (Qfloor x) ?= 1 # 2)%Q = Lt) by (by apply Qlt_alt).
    rewrite Hc. lia.
  - destruct (x - inject_Z (Qfloor x) ?= 1 # 2)%Q; [destruct (Z.even _)|..]; lia.
Qed.

(** [round(x, 2)] keeps a float between two hundredths it lies between. *)
Lemma round2_range (x : Q) (lo hi : Z) :
  (inject_Z lo / 100 <= x)%Q -> (x <= inject_Z hi / 100)%Q ->
  (inject_Z lo / 100 <= Num.round2 x /\ Num.round2 x <= inject_Z hi / 100)%Q.
Proof.
  intros Hlo Hhi. unfold Num.round2.
  assert (H100 : (0 < 100)%Q) by reflexivity.
  split; apply Qmult_le_compat_r; try (apply Qinv_le_0_compat; discriminate);
    rewrite <- Zle_Qle.
  - apply round_half_even_lower.
    assert (E : (inject_Z lo == inject_Z lo / 100 * 100)%Q) by field. rewrite E.
    apply Qmult_le_compat_r; [assumption|discriminate].
  - apply round_half_even_upper.
    assert (E : (inject_Z hi == inject_Z hi / 100 * 100)%Q) by field. rewrite E.
    apply Qmult_le_compat_r; [assumption|discriminate].
Qed.

(* ------------------------------------------------------------------ *)
(** * The draws *)

Section Draws.

Context {S : Type}.

Lemma random_draw_returns : returns (@Random.draw S) (fun _ => True).
Proof.
  intros w. unfold Random.draw. cbn. eexists _, _. split; [reflexivity|]. done.
Qed.

Lemma np_draw_returns : returns (@NpRandom.draw S) (fun _ => True).
Proof.
  intros w. unfold NpRandom.draw. cbn. eexists _, _. split; [reflexivity|]. done.
Qed.

(** [randint(a, b)] of a non-empty range returns an integer of it. *)
Lemma randint_returns (a b : Z) :
  a <= b -> returns (@Random.randint S a b) (fun v => a <= v <= b).
Proof.
  intros Hab. unfold Random.randint.
  destruct (b <? a) eqn:E; [lia|].
  eapply returns_bind; [apply random_draw_returns|]. intros r _.
  apply returns_ret. pose proof (Z.mod_pos_bound (Z.of_N r) (b - a + 1)). lia.
Qed.

(** [randint(a, b)] of an empty range raises before it draws. *)
Lemma randint_empty (a b : Z) (w : World S) :
  b < a -> exists msg, Random.randint a b w = (Raise (ValueError msg), w).
Proof.
  intros Hab. unfold Random.randint.
  destruct (b <? a) eqn:E; [|lia]. eexists. reflexivity.
Qed.

Lemma random_returns : returns (@Random.random S) (fun u => (0 <= u /\ u < 1)%Q).
Proof.
  unfold Random.random.
  eapply returns_bind; [apply random_draw_returns|]. intros r _.
  apply returns_ret.
  pose proof (Z.mod_pos_bound (Z.of_N r) (2 ^ 53)) as Hm.
  unfold Qle, Qlt. cbn [Qnum Qden]. lia.
Qed.

(** [uniform(a, b)] returns a float between its arguments. *)
Lemma uniform_returns (a b : Q) :
  (a <= b)%Q -> returns (@Random.uniform S a b) (fun v => (a <= v /\ v <= b)%Q).
Proof.
  intros Hab. unfold Random.uniform.
  eapply returns_bind; [apply random_returns|]. intros u [Hu0 Hu1].
  apply returns_ret.
  assert (Hd : (0 <= b - a)%Q) by lra.
  assert (H1 : (0 <= (b - a) * u)%Q) by (by apply Qmult_le_0_compat).
  assert (H2 : ((b - a) * u <= (b - a) * 1)%Q).
  { apply Qmult_le_compat_nonneg; split; (assumption || apply Qle_refl || lra). }
  split; lra.
Qed.

(** [np.random.randint(low, high, size=n)] returns [n] integers of
    [[low, high)]. *)
Lemma np_randint_returns (low high : Z) (size : nat) :
  low < high ->
  returns (@NpRandom.randint S low high size)
          (fun v => length v = size /\ Forall (fun x => low <= x < high) v).
Proof.
  intros Hlh. unfold NpRandom.randint.
  destruct (high <=? low) eqn:E; [lia|].
  eapply returns_weaken.
  - apply returns_collect with (P := fun x => low <= x < high). intros _ _.
    eapply returns_bind; [apply np_draw_returns|]. intros r _.
    apply returns_ret. pose proof (Z.mod_pos_bound (Z.of_N r) (high - low)). lia.
  - intros v [Hlen Hv]. by rewrite length_seq in Hlen.
Qed.

End Draws.

(* ------------------------------------------------------------------ *)
(** * The canvas of the rotated sprite *)

Lemma rotated_extent_nonneg (matrix : Matrix) (cell_h cell_w : Z) :
  0 <= cell_h -> 0 <= cell_w ->
  (0 <= fst (rotated_extent matrix cell_h cell_w)
   /\ 0 <= snd (rotated_extent matrix cell_h cell_w))%Q.
Proof.
  intros Hh Hw. unfold rotated_extent. cbn [fst snd].
  assert (0 <= inject_Z cell_h)%Q by (by rewrite (Zle_Qle 0) in Hh).
  assert (0 <= inject_Z cell_w)%Q by (by rewrite (Zle_Qle 0) in Hw).
  pose proof (Qabs_nonneg (m00 matrix)). pose proof (Qabs_nonneg (m01 matrix)).
  split; rewrite <- (Qplus_0_l 0);
    apply Qplus_le_compat; apply Qmult_le_0_compat; assumption.
Qed.

Lemma rotated_size_extent (matrix : Matrix) (cell_h cell_w : Z) :
  rotated_size matrix cell_h cell_w =
  (Num.int (fst (rotated_extent matrix cell_h cell_w)),
   Num.int (snd (rotated_extent matrix cell_h cell_w))).
Proof. reflexivity. Qed.

(** A unit rotation never makes the canvas smaller than the shorter side
    of the sprite. *)
Lemma rotated_size_lower (matrix : Matrix) (cell_h cell_w s : Z) :
  (1 <= Qabs (m00 matrix) + Qabs (m01 matrix))%Q ->
  0 <= s -> s <= cell_h -> s <= cell_w ->
  s <= fst (rotated_size matrix cell_h cell_w)
  /\ s <= snd (rotated_size matrix cell_h cell_w).
Proof.
  intros Hunit Hs Hh Hw. rewrite rotated_size_extent. cbn [fst snd].
  unfold rotated_extent. cbn [fst snd].
  pose proof (Qabs_nonneg (m00 matrix)) as Ha. pose proof (Qabs_nonneg (m01 matrix)) as Hb.
  set (a := Qabs (m00 matrix)) in *. set (b := Qabs (m01 matrix)) in *.
  assert (Hs' : (0 <= inject_Z s)%Q) by (by rewrite (Zle_Qle 0) in Hs).
  assert (Hh' : (inject_Z s <= inject_Z cell_h)%Q) by (by rewrite Zle_Qle in Hh).
  assert (Hw' : (inject_Z s <= inject_Z cell_w)%Q) by (by rewrite Zle_Qle in Hw).
  assert (Hha : (inject_Z s * a <= inject_Z cell_h * a)%Q)
    by (by apply Qmult_le_compat_r).
  assert (Hhb : (inject_Z s * b <= inject_Z cell_h * b)%Q)
    by (by apply Qmult_le_compat_r).
  assert (Hwa : (inject_Z s * a <= inject_Z cell_w * a)%Q)
    by (by apply Qmult_le_compat_r).
  assert (Hwb : (inject_Z s * b <= inject_Z cell_w * b)%Q)
    by (by apply Qmult_le_compat_r).
  assert (Hsum : (inject_Z s * 1 <= inject_Z s * (a + b))%Q).
  { apply Qmult_le_compat_nonneg; split; (assumption || apply Qle_refl || lra). }
  split; rewrite <- (int_inject_Z s) at 1; apply int_mono; try assumption; lra.
Qed.

(* ------------------------------------------------------------------ *)
(** * What every store keeps: the shape and the 8-bit range *)

Lemma keeps_refl (a : ndarray) : keeps a a.
Proof. unfold keeps. auto. Qed.

Lemma keeps_trans (a b c : ndarray) : keeps a b -> keeps b c -> keeps a c.
Proof.
  intros (H0 & H1 & H2 & Hu) (H0' & H1' & H2' & Hu').
  unfold keeps. do 3 (split; [congruence|]). auto.
Qed.

Lemma blend_channel_keeps (cell : ndarray) (coord : Coord) (cell_h cell_w : Z)
    (transparency : Q) (background : ndarray) (c : Z) (b : ndarray) :
  blend_channel cell coord cell_h cell_w transparency background c = Ok b ->
  keeps background b.
Proof.
  unfold blend_channel. intros E.
  destruct (shape2 background <=? c); [discriminate|].
  destruct (Np.broadcast _ _) as [e0|]; [|discriminate].
  destruct (Np.broadcast _ _) as [e1|]; [|discriminate].
  destruct (Np.fits e0 _ && Np.fits e1 _); [|discriminate].
  injection E as <-. split; [reflexivity|]. do 2 (split; [reflexivity|]).
  intros Hu i j c' Hi Hj Hc. cbn in *.
  match goal with |- context [if ?g then _ else _] => destruct g end.
  - apply to_uint8_range.
  - by apply Hu.
Qed.

Lemma blend_channels_keeps (cell : ndarray) (coord : Coord) (cell_h cell_w : Z)
    (transparency : Q) (cs : list Z) :
  forall background b,
    blend_channels cell coord cell_h cell_w transparency background cs = Ok b ->
    keeps background b.
Proof.
  induction cs as [|c cs IH]; intros background b E; cbn [blend_channels] in E.
  - injection E as <-. apply keeps_refl.
  - destruct (blend_channel _ _ _ _ _ background c) as [b1|] eqn:E1; [|discriminate].
    eapply keeps_trans; [eapply blend_channel_keeps; exact E1|by apply IH].
Qed.

Lemma clip_and_blend_keeps (background cell : ndarray) (coord : Coord)
    (cell_h cell_w : Z) (transparency : Q) (b : ndarray) :
  clip_and_blend background cell coord cell_h cell_w transparency = Ok b ->
  keeps background b.
Proof.
  unfold clip_and_blend. destruct (shape2 _ =? 4).
  - apply blend_channels_keeps.
  - intros E. injection E as <-. apply keeps_refl.
Qed.

Lemma set_pixel_keeps (image : ndarray) (i j : Z) (v : list Z) (b : ndarray) :
  Forall (fun x => 0 <= x < 256) v ->
  Np.set_pixel image i j v = Ok b -> keeps image b.
Proof.
  unfold Np.set_pixel. intros Hv E.
  destruct (_ =? _) eqn:Elen; [|discriminate]. injection E as <-.
  split; [reflexivity|]. do 2 (split; [reflexivity|]).
  intros Hu i' j' c Hi Hj Hc. cbn in *.
  destruct ((i' =? i) && (j' =? j)); [|by apply Hu].
  destruct (nth_in_or_default (Z.to_nat c) v 0) as [Hin| ->]; [|lia].
  rewrite Forall_forall in Hv. apply list_elem_of_In, Hv in Hin. lia.
Qed.

(* ------------------------------------------------------------------ *)
(** * The steps of the pipeline return *)

Lemma written_app (evs evs' : list Event) :
  written (evs ++ evs') = written evs ++ written evs'.
Proof. unfold written. apply omap_app. Qed.

Lemma emit_returns {S : Type} (ev : Event) :
  written [ev] = [] -> returns (@emit S ev) (fun _ => True).
Proof.
  intros Hev w. eexists tt, _. split; [reflexivity|]. split; [done|].
  cbn. rewrite written_app, Hev. apply app_nil_r.
Qed.

Section Pipeline.

Context `{Cv2} {S : Type} `{DatasetLoader S}.
Variable self : ImageGenerator.

Local Abbreviation height := (fst (img_size self)).
Local Abbreviation width := (snd (img_size self)).

Lemma load_image_returns (path : string) (with_alpha : bool) (a : ndarray) :
  imread path (if with_alpha then IMREAD_UNCHANGED else IMREAD_COLOR) = Some a ->
  0 < height -> 0 < width ->
  returns (_load_image self path true with_alpha : M S ndarray)
          (fun b => has_shape b height width (shape2 a)
                    /\ (with_alpha = false -> shape2 a = 3 /\ uint8_array b)).
Proof.
  intros Ha Hh Hw. unfold _load_image. rewrite Ha.
  eapply returns_bind; [by apply emit_returns|]. intros _ _.
  destruct (imread_nonempty _ _ _ Ha) as (Ha0 & Ha1 & _).
  destruct (resize_ok a width height Ha0 Ha1 Hw Hh) as (b & Eb & Hb & Hu).
  eapply returns_lift; [exact Eb|]. split; [exact Hb|].
  intros ->. destruct (imread_color _ _ Ha) as [Hc3 Hu8]. auto.
Qed.

Lemma rotate_cell_returns (cell : ndarray) (cell_h cell_w : Z) :
  0 < shape0 cell -> 0 < shape1 cell -> 1 <= cell_h -> 1 <= cell_w ->
  returns (_rotate_cell cell cell_h cell_w : M S _)
    (fun r =>
       let '(rotated, new_h, new_w) := r in
       has_shape rotated new_h new_w (shape2 cell)
       /\ 1 <= new_h /\ 1 <= new_w
       /\ (uint8_array cell -> uint8_array rotated)
       /\ exists angle,
            0 <= angle <= 360
            /\ (new_h, new_w) =
               rotated_size (getRotationMatrix2D (cell_w / 2, cell_h / 2) angle 1)
                            cell_h cell_w).
Proof.
  intros Hc0 Hc1 Hh Hw. unfold _rotate_cell.
  eapply returns_bind; [apply randint_returns; lia|]. intros angle Hangle.
  set (matrix := getRotationMatrix2D (cell_w / 2, cell_h / 2) angle 1).
  destruct (rotated_size_lower matrix cell_h cell_w 1) as [Hnh Hnw];
    [apply rotation_unit|lia..|].
  destruct (rotated_size matrix cell_h cell_w) as [new_h new_w] eqn:Esize.
  cbn [fst snd] in Hnh, Hnw.
  match goal with |- context [warpAffine cell ?m (new_w, new_h)] =>
    destruct (warpAffine_ok cell m new_w new_h) as (b & Eb & Hb & Hu); [lia..|]
  end.
  eapply returns_bind.
  { apply returns_lift with (a := b)
      (P := fun r => has_shape r new_h new_w (shape2 cell)
                     /\ (uint8_array cell -> uint8_array r)); [exact Eb|by split]. }
  intros rotated [Hshape Hu8]. apply returns_ret.
  split; [exact Hshape|]. do 2 (split; [assumption|]). split; [exact Hu8|].
  exists angle. split; [exact Hangle|]. symmetry. exact Esize.
Qed.

(** The side of the resized sprite is at least one pixel once the
    shorter side of the image has twenty. *)
Lemma cell_size_positive (scale : Q) :
  20 <= Num.min2 (img_size self) ->
  (5 # 100 <= scale)%Q ->
  1 <= Num.int (inject_Z (Num.min2 (img_size self)) * scale).
Proof.
  intros Hmin Hscale. rewrite <- (int_inject_Z 1) at 1.
  apply int_mono; [discriminate|].
  assert (Hm : (inject_Z 20 <= inject_Z (Num.min2 (img_size self)))%Q)
    by (by rewrite <- Zle_Qle).
  assert (E : (inject_Z 1 == inject_Z 20 * (5 # 100))%Q) by reflexivity.
  rewrite E. apply Qmult_le_compat_nonneg; split;
    (assumption || discriminate).
Qed.

Lemma overlay_returns (background cell : ndarray) (coord : Coord) (transparency : Q) :
  20 <= Num.min2 (img_size self) ->
  0 < shape0 cell -> 0 < shape1 cell ->
  0 <= coord_h coord <= shape0 background ->
  0 <= coord_w coord <= shape1 background ->
  3 <= shape2 background ->
  returns (_overlay self background cell coord transparency : M S ndarray)
          (fun b => keeps background b).
Proof.
  intros Hmin Hc0 Hc1 Hh Hw Hch. unfold _overlay.
  eapply returns_bind; [apply (uniform_returns (5 # 100) (20 # 100)); discriminate|].
  intros u [Hu0 Hu1].
  destruct (round2_range u 5 20) as [Hs0 _]; [exact Hu0|exact Hu1|].
  pose proof (cell_size_positive (Num.round2 u) Hmin Hs0) as Hsize.
  set (cell_size := Num.int (inject_Z (Num.min2 (img_size self)) * Num.round2 u)) in *.
  destruct (resize_ok cell cell_size cell_size) as (c1 & E1 & (S0 & S1 & S2) & _);
    [lia..|].
  eapply returns_bind.
  { apply returns_lift with (a := c1)
      (P := fun r => shape0 r = cell_size /\ shape1 r = cell_size); [exact E1|by split]. }
  intros c2 [S0' S1'].
  eapply returns_bind; [apply rotate_cell_returns; lia|].
  intros [[rotated new_h] new_w] ((R0 & R1 & R2) & Hnh & Hnw & _).
  destruct (clip_and_blend_inside background rotated coord new_h new_w transparency)
    as (b & Eb & _); [assumption || lia ..|].
  eapply returns_lift; [exact Eb|]. eapply clip_and_blend_keeps. exact Eb.
Qed.

(** With a shorter side of at most four pixels the sprite is resized to
    nothing, which the codec refuses. *)
Lemma overlay_tiny_size_raises (background cell : ndarray) (coord : Coord)
    (transparency : Q) (w : World S) :
  Num.min2 (img_size self) <= 4 ->
  fst (_overlay self background cell coord transparency w) = Raise cv2_error.
Proof.
  intros Hmin.
  destruct (uniform_returns (S := S) (5 # 100) (20 # 100)) with (w := w)
    as (u & w1 & E1 & [Hu0 Hu1] & _); [discriminate|].
  destruct (round2_range u 5 20) as [Hs0 Hs1]; [exact Hu0|exact Hu1|].
  unfold _overlay. unfold bind at 1. rewrite E1.
  set (scale := Num.round2 u) in *.
  assert (Hsize : Num.int (inject_Z (Num.min2 (img_size self)) * scale) <= 0).
  { apply int_below_one.
    assert (Hm : (inject_Z (Num.min2 (img_size self)) <= inject_Z 4)%Q)
      by (by rewrite <- Zle_Qle).
    assert (Hpos : (0 <= scale)%Q) by (eapply Qle_trans; [|exact Hs0]; discriminate).
    apply Qle_lt_trans with (inject_Z 4 * scale)%Q.
    - by apply Qmult_le_compat_r.
    - apply Qle_lt_trans with (inject_Z 4 * (inject_Z 20 / 100))%Q; [|reflexivity].
      apply Qmult_le_compat_nonneg; split;
        (assumption || discriminate || apply Qle_refl). }
  unfold bind, lift. rewrite resize_empty by (left; exact Hsize). reflexivity.
Qed.

End Pipeline.

Section Generation.

Context `{Cv2} {S : Type} `{DatasetLoader S}.
Variable self : ImageGenerator.

Local Abbreviation height := (fst (img_size self)).
Local Abbreviation width := (snd (img_size self)).

Lemma generate_cell_coords_returns (count : Z) :
  0 <= height -> 0 <= width ->
  returns (_generate_cell_coords self count : M S _)
    (fun coords => length coords = Z.to_nat count
                   /\ Forall (placement_in_range self) coords).
Proof.
  intros Hh Hw. unfold _generate_cell_coords.
  eapply returns_weaken.
  - apply returns_collect with (P := placement_in_range self). intros _ _.
    pose proof (percent_of_range height Hh). pose proof (percent_of_range width Hw).
    eapply returns_bind; [apply randint_returns; lia|]. intros h Hh'.
    eapply returns_bind; [apply randint_returns; lia|]. intros w Hw'.
    apply returns_ret. by split.
  - intros coords [Hlen Hall]. split; [|assumption].
    rewrite Hlen. unfold range. apply length_seqZ.
Qed.

Lemma noise_image_returns (image : ndarray) (percent : Q) :
  shape2 image = 3 ->
  returns (noise_image image percent : M S ndarray) (fun b => keeps image b).
Proof.
  intros Hc. unfold noise_image.
  apply returns_fold_each with (I := fun b => keeps image b); [|apply keeps_refl].
  intros row i _ Hrow.
  apply returns_fold_each with (I := fun b => keeps image b); [|assumption].
  intros acc j _ Hacc.
  eapply returns_bind; [apply random_returns|]. intros r _.
  destruct (r ?= percent / 100)%Q; try (by apply returns_ret).
  eapply returns_bind; [apply (np_randint_returns 0 256 3); lia|].
  intros v [Hlen Hv].
  destruct (Np.set_pixel acc i j v) as [b|e] eqn:Eb.
  - eapply returns_lift; [reflexivity|].
    eapply keeps_trans; [exact Hacc|]. eapply set_pixel_keeps; eassumption.
  - exfalso. unfold Np.set_pixel in Eb. rewrite Hlen in Eb.
    destruct Hacc as (_ & _ & Hacc2 & _). rewrite Hacc2, Hc in Eb. discriminate.
Qed.

Lemma loader_background_returns :
  loader_decodes ->
  returns (loader_background : M S string)
          (fun p => is_Some (imread p IMREAD_COLOR)).
Proof.
  intros [Hbg _] w. unfold loader_background.
  specialize (Hbg (loader w) (py_rng w)).
  destruct (get_random_background (loader w) (py_rng w)) as [[p s] g].
  eexists p, _. split; [reflexivity|]. split; [exact Hbg|].
  cbn. rewrite written_app. apply app_nil_r.
Qed.

Lemma loader_cell_returns :
  loader_decodes ->
  returns (loader_cell : M S string)
          (fun p => is_Some (imread p IMREAD_UNCHANGED)).
Proof.
  intros [_ Hcell] w. unfold loader_cell.
  specialize (Hcell (loader w) (py_rng w)).
  destruct (get_random_cell (loader w) (py_rng w)) as [[p s] g].
  eexists p, _. split; [reflexivity|]. split; [exact Hcell|].
  cbn. rewrite written_app. apply app_nil_r.
Qed.

Lemma coords_at_range (coords : list Coord) (n i : Z) :
  length coords = Z.to_nat n -> i ∈ range n ->
  Forall (placement_in_range self) coords ->
  exists c, coords_at coords i = Ok c /\ placement_in_range self c.
Proof.
  intros Hlen Hi Hall. unfold range in Hi. apply elem_of_seqZ in Hi.
  unfold coords_at.
  destruct (coords !! Z.to_nat i) as [c|] eqn:Ec.
  - exists c. split; [reflexivity|].
    rewrite Forall_forall in Hall. apply Hall. by eapply list_elem_of_lookup_2.
  - apply lookup_ge_None in Ec. lia.
Qed.

Lemma generate_image_returns :
  loader_decodes -> 20 <= height -> 20 <= width ->
  min_cells self <= max_cells self ->
  returns (_generate_image self : M S ndarray) (well_formed self).
Proof.
  intros Hdec Hh Hw Hcells. unfold _generate_image.
  eapply returns_bind; [by apply randint_returns|]. intros n _.
  eapply returns_bind; [apply generate_cell_coords_returns; lia|].
  intros coords [Hlen Hall].
  eapply returns_bind; [by apply loader_background_returns|]. intros path [a Ha].
  eapply returns_bind; [apply (load_image_returns self path false a Ha); lia|].
  intros background [Hshape Hcolor]. destruct (Hcolor eq_refl) as [Hc3 Hu8].
  rewrite Hc3 in Hshape.
  eapply returns_bind.
  - apply returns_fold_each with (I := (well_formed self)); [|by split].
    intros bg i Hi [(B0 & B1 & B2) Bu].
    eapply returns_bind; [by apply loader_cell_returns|]. intros p [c Hc].
    eapply returns_bind; [apply (load_image_returns self p true c Hc); lia|].
    intros cell [(C0 & C1 & C2) _].
    eapply returns_bind; [apply (uniform_returns (6 # 10) 1); discriminate|].
    intros transparency _.
    destruct (coords_at_range coords n i Hlen Hi Hall) as (coord & Ecoord & Hch & Hcw).
    eapply returns_bind.
    { apply returns_lift with (a := coord) (P := fun c' => c' = coord);
        [exact Ecoord|reflexivity]. }
    intros ? ->.
    pose proof (percent_of_range height) as Ph. pose proof (percent_of_range width) as Pw.
    eapply returns_weaken.
    + apply overlay_returns; unfold Num.min2; lia.
    + intros b (K0 & K1 & K2 & Ku). split; [|by apply Ku].
      unfold has_shape. lia.
  - intros bg [(B0 & B1 & B2) Bu]. unfold _apply_random_noise.
    eapply returns_bind; [apply (uniform_returns 1 50); discriminate|].
    intros percent _.
    eapply returns_weaken; [by apply noise_image_returns|].
    intros b (K0 & K1 & K2 & Ku). split; [|by apply Ku].
    unfold has_shape. lia.
Qed.

End Generation.

(* ------------------------------------------------------------------ *)
(** * The batch *)

Section Batch.

Context `{Cv2} {S : Type} `{DatasetLoader S}.
Variable self : ImageGenerator.
Variable save_dir : string.

Lemma generate_and_save_loop (w : World S) :
  generate_and_save self save_dir w =
  for_each (range (num_imgs self)) (save_one self save_dir) (snd (ensure_dir save_dir w)).
Proof.
  unfold generate_and_save, bind, ensure_dir.
  destruct (decide (save_dir ∈ dirs w)); reflexivity.
Qed.

Lemma ensure_dir_written (w : World S) :
  written (log (snd (ensure_dir save_dir w))) = written (log w).
Proof.
  unfold ensure_dir. destruct (decide (save_dir ∈ dirs w)); [reflexivity|].
  cbn. rewrite written_app. apply app_nil_r.
Qed.


End Batch.

(* ------------------------------------------------------------------ *)
(** * Placements *)

Section Placements.

Context `{Cv2} {S : Type} `{DatasetLoader S}.
Variable self : ImageGenerator.

Lemma sample_coord_replay (c : Coord) (t : nat -> N) (p : nat) (w : World S) :
  placement_in_range self c ->
  t p = Z.to_N (coord_h c) -> t (Datatypes.S p) = Z.to_N (coord_w c) ->
  sample_coord self (with_py_rng w (mk_rng t p))
  = (Ok c, with_py_rng w (mk_rng t (Datatypes.S (Datatypes.S p)))).
Proof.
  intros [Hh Hw] Eh Ew. unfold sample_coord, Random.randint.
  assert (E1 : (fst (img_size self) - Num.percent_of (fst (img_size self)) <? 0) = false)
    by (apply Z.ltb_ge; lia).
  assert (E2 : (snd (img_size self) - Num.percent_of (snd (img_size self)) <? 0) = false)
    by (apply Z.ltb_ge; lia).
  rewrite E1, E2.
  unfold bind, Random.draw, rng_next, ret, with_py_rng. cbn.
  rewrite Eh, Ew, !Z2N.id by lia. rewrite !Z.mod_small by lia.
  destruct c. reflexivity.
Qed.

Lemma collect_coords_replay (coords : list Coord) :
  Forall (placement_in_range self) coords ->
  forall (A : Type) (l : list A) (t : nat -> N) (p : nat) (w : World S),
    length l = length coords ->
    (forall k, (k < length (words_of coords))%nat ->
               t (p + k)%nat = nth k (words_of coords) 0%N) ->
    exists w',
      collect l (fun _ => sample_coord self) (with_py_rng w (mk_rng t p)) = (Ok coords, w').
Proof.
  induction 1 as [|c cs Hc Hcs IH]; intros A l t p w Hlen Ht.
  - destruct l; [|discriminate]. eexists. reflexivity.
  - destruct l as [|x l]; [discriminate|]. cbn [collect].
    change (words_of (c :: cs))
      with (Z.to_N (coord_h c) :: Z.to_N (coord_w c) :: words_of cs) in Ht.
    cbn [length] in Ht.
    assert (E0 : t p = Z.to_N (coord_h c)).
    { specialize (Ht 0%nat). rewrite Nat.add_0_r in Ht. apply Ht. lia. }
    assert (E1 : t (Datatypes.S p) = Z.to_N (coord_w c)).
    { specialize (Ht 1%nat). rewrite Nat.add_1_r in Ht. apply Ht. lia. }
    destruct (IH A l t (Datatypes.S (Datatypes.S p)) w) as (w' & E).
    + cbn in Hlen. lia.
    + intros k Hk. specialize (Ht (Datatypes.S (Datatypes.S k))).
      replace (p + Datatypes.S (Datatypes.S k))%nat
        with (Datatypes.S (Datatypes.S p) + k)%nat in Ht by lia.
      apply Ht. lia.
    + exists w'. unfold bind at 1.
      rewrite (sample_coord_replay c t p w Hc E0 E1).
      unfold bind at 1. rewrite E. reflexivity.
Qed.

End Placements.

Section PlacementDraws.

Context `{Cv2} {S : Type} `{DatasetLoader S}.
Variable self : ImageGenerator.

Lemma sample_coord_draws (w : World S) :
  0 <= fst (img_size self) -> 0 <= snd (img_size self) ->
  exists c,
    sample_coord self w
    = (Ok c, with_py_rng w (mk_rng (tape (py_rng w))
                                   (Datatypes.S (Datatypes.S (pos (py_rng w))))))
    /\ placement_in_range self c.
Proof.
  intros Hh Hw.
  pose proof (percent_of_range _ Hh) as Ph. pose proof (percent_of_range _ Hw) as Pw.
  unfold sample_coord, Random.randint.
  assert (E1 : (fst (img_size self) - Num.percent_of (fst (img_size self)) <? 0) = false)
    by (apply Z.ltb_ge; lia).
  assert (E2 : (snd (img_size self) - Num.percent_of (snd (img_size self)) <? 0) = false)
    by (apply Z.ltb_ge; lia).
  rewrite E1, E2.
  unfold bind, Random.draw, rng_next, ret, with_py_rng. cbn.
  eexists. split; [reflexivity|]. split; cbn.
  - pose proof (Z.mod_pos_bound (Z.of_N (tape (py_rng w) (pos (py_rng w))))
                  (fst (img_size self) - Num.percent_of (fst (img_size self)) - 0 + 1)).
    lia.
  - pose proof (Z.mod_pos_bound
                  (Z.of_N (tape (py_rng w) (Datatypes.S (pos (py_rng w)))))
                  (snd (img_size self) - Num.percent_of (snd (img_size self)) - 0 + 1)).
    lia.
Qed.

(** Each placement takes the next two words of the generator. *)
Lemma collect_coords_draws {A : Type} (l : list A) :
  0 <= fst (img_size self) -> 0 <= snd (img_size self) ->
  forall w : World S, exists coords,
    collect l (fun _ => sample_coord self) w
    = (Ok coords, with_py_rng w (mk_rng (tape (py_rng w))
                                        (pos (py_rng w) + 2 * length l)))
    /\ length coords = length l
    /\ Forall (placement_in_range self) coords.
Proof.
  intros Hh Hw. induction l as [|x l IH]; intros w; cbn [collect].
  - exists []. split; [|by split]. unfold ret, with_py_rng. cbn.
    rewrite Nat.add_0_r. by destruct w as [[t p] ? ? ? ?].
  - destruct (sample_coord_draws w Hh Hw) as (c & Ec & Hc).
    unfold bind at 1. rewrite Ec.
    destruct (IH (with_py_rng w (mk_rng (tape (py_rng w))
                                        (Datatypes.S (Datatypes.S (pos (py_rng w)))))))
      as (cs & Ecs & Hlen & Hcs).
    unfold bind at 1. rewrite Ecs. exists (c :: cs).
    split; [|split; [cbn; congruence|by constructor]].
    unfold ret, with_py_rng. cbn. do 3 f_equal. lia.
Qed.

End PlacementDraws.

(* ------------------------------------------------------------------ *)
(** * What is asked of the collaborators, and in which order *)

Section Protocol.

Context `{Cv2} {S : Type} `{DatasetLoader S}.

Lemma quiet_ret {A} (a : A) : quiet (ret a : M S A).
Proof. by intros w. Qed.

Lemma quiet_raise {A} (e : exn) : quiet (@raise S A e).
Proof. by intros w. Qed.

Lemma quiet_lift {A} (r : Result A) : quiet (lift r : M S A).
Proof. by intros w. Qed.

Lemma quiet_bind {A B} (m : M S A) (k : A -> M S B) :
  quiet m -> (forall a, quiet (k a)) -> quiet (bind m k).
Proof.
  intros Hm Hk w. unfold bind. specialize (Hm w).
  destruct (m w) as [[a|e] w1]; cbn in *; [|assumption].
  rewrite <- Hm. apply Hk.
Qed.

Lemma quiet_fold_each {A B} (l : list A) (body : B -> A -> M S B) :
  (forall acc x, quiet (body acc x)) -> forall acc, quiet (fold_each l acc body).
Proof.
  intros Hbody. induction l as [|x l IH]; intros acc; cbn [fold_each].
  - apply quiet_ret.
  - apply quiet_bind; [apply Hbody|apply IH].
Qed.

Lemma quiet_collect {A B} (l : list A) (body : A -> M S B) :
  (forall x, quiet (body x)) -> quiet (collect l body).
Proof.
  intros Hbody. induction l as [|x l IH]; cbn [collect].
  - apply quiet_ret.
  - apply quiet_bind; [apply Hbody|]. intros y.
    apply quiet_bind; [apply IH|]. intros ys. apply quiet_ret.
Qed.

Lemma quiet_random_draw : quiet (@Random.draw S).
Proof. by intros w. Qed.

Lemma quiet_np_draw : quiet (@NpRandom.draw S).
Proof. by intros w. Qed.

Lemma quiet_randint (a b : Z) : quiet (@Random.randint S a b).
Proof.
  unfold Random.randint. destruct (b <? a); [apply quiet_raise|].
  apply quiet_bind; [apply quiet_random_draw|]. intros r. apply quiet_ret.
Qed.

Lemma quiet_random : quiet (@Random.random S).
Proof.
  unfold Random.random.
  apply quiet_bind; [apply quiet_random_draw|]. intros r. apply quiet_ret.
Qed.

Lemma quiet_uniform (a b : Q) : quiet (@Random.uniform S a b).
Proof.
  unfold Random.uniform.
  apply quiet_bind; [apply quiet_random|]. intros r. apply quiet_ret.
Qed.

Lemma quiet_np_randint (low high : Z) (size : nat) :
  quiet (@NpRandom.randint S low high size).
Proof.
  unfold NpRandom.randint. destruct (high <=? low); [apply quiet_raise|].
  apply quiet_collect. intros _.
  apply quiet_bind; [apply quiet_np_draw|]. intros r. apply quiet_ret.
Qed.

Lemma quiet_generate_cell_coords (self : ImageGenerator) (count : Z) :
  quiet (_generate_cell_coords self count : M S _).
Proof.
  unfold _generate_cell_coords. apply quiet_collect. intros _.
  apply quiet_bind; [apply quiet_randint|]. intros h.
  apply quiet_bind; [apply quiet_randint|]. intros w. apply quiet_ret.
Qed.

Lemma quiet_rotate_cell (cell : ndarray) (cell_h cell_w : Z) :
  quiet (_rotate_cell cell cell_h cell_w : M S _).
Proof.
  unfold _rotate_cell. apply quiet_bind; [apply quiet_randint|]. intros angle.
  destruct (rotated_size _ _ _) as [new_h new_w].
  apply quiet_bind; [apply quiet_lift|]. intros rotated. apply quiet_ret.
Qed.

Lemma quiet_overlay (self : ImageGenerator) (background cell : ndarray)
    (coord : Coord) (transparency : Q) :
  quiet (_overlay self background cell coord transparency : M S _).
Proof.
  unfold _overlay. apply quiet_bind; [apply quiet_uniform|]. intros u.
  apply quiet_bind; [apply quiet_lift|]. intros c.
  apply quiet_bind; [apply quiet_rotate_cell|]. intros [[rotated new_h] new_w].
  apply quiet_lift.
Qed.

Lemma quiet_noise_image (image : ndarray) (percent : Q) :
  quiet (noise_image image percent : M S _).
Proof.
  unfold noise_image. apply quiet_fold_each. intros row i.
  apply quiet_fold_each. intros acc j.
  apply quiet_bind; [apply quiet_random|]. intros r.
  destruct (r ?= percent / 100)%Q; try apply quiet_ret.
  apply quiet_bind; [apply quiet_np_randint|]. intros v. apply quiet_lift.
Qed.

Lemma quiet_apply_random_noise (image : ndarray) :
  quiet (_apply_random_noise image : M S _).
Proof.
  unfold _apply_random_noise. apply quiet_bind; [apply quiet_uniform|].
  intros p. apply quiet_noise_image.
Qed.

End Protocol.

Lemma split_in_app {A : Type} (l1 l2 pre : list A) (x : A) (suf : list A) :
  l1 ++ l2 = pre ++ x :: suf ->
  (exists suf1, l1 = pre ++ x :: suf1 /\ suf = suf1 ++ l2)
  \/ (exists pre2, l2 = pre2 ++ x :: suf /\ pre = l1 ++ pre2).
Proof.
  revert pre. induction l1 as [|y l1 IH]; intros pre E.
  - right. exists pre. by split.
  - destruct pre as [|z pre]; cbn in E.
    + left. exists l1. injection E as -> <-. by split.
    + injection E as -> E. destruct (IH pre E) as [(suf1 & -> & ->)|(pre2 & -> & ->)].
      * left. by exists suf1.
      * right. by exists pre2.
Qed.

Lemma bind_assoc {S A B C : Type} (m : M S A) (f : A -> M S B) (g : B -> M S C)
    (w : World S) :
  bind m (fun a => bind (f a) g) w = bind (bind m f) g w.
Proof. unfold bind. by destruct (m w) as [[a|e] w1]. Qed.

Section ProtocolRules.

Context `{Cv2} {S : Type} `{DatasetLoader S}.

Lemma obeys_quiet {A} (m : M S A) : quiet m -> obeys m.
Proof.
  intros Hm w. exists []. rewrite app_nil_r. split; [apply Hm|].
  split; [|split]; intros pre p; intros; by destruct pre.
Qed.

Lemma obeys_ext {A} (m m' : M S A) : (forall w, m w = m' w) -> obeys m -> obeys m'.
Proof. intros E Hm w. rewrite <- E. apply Hm. Qed.

Lemma obeys_bind {A B} (m : M S A) (k : A -> M S B) :
  obeys m -> (forall a, obeys (k a)) -> obeys (bind m k).
Proof.
  intros Hm Hk w. destruct (Hm w) as (evs1 & L1 & F1 & B1 & C1). unfold bind.
  destruct (m w) as [[a|e] w1]; cbn [fst snd] in *.
  - destruct (Hk a w1) as (evs2 & L2 & F2 & B2 & C2).
    exists (evs1 ++ evs2). split; [by rewrite L2, L1, app_assoc|].
    split; [|split].
    + intros pre p f suf E. apply split_in_app in E.
      destruct E as [(suf1 & E1 & ->)|(pre2 & E2 & ->)].
      * destruct (F1 _ _ _ _ E1) as [_ ?]. discriminate.
      * by apply (F2 _ _ _ _ E2).
    + intros pre p suf E. apply split_in_app in E.
      destruct E as [(suf1 & E1 & ->)|(pre2 & E2 & ->)].
      * destruct (B1 _ _ _ E1) as (suf' & ->). by eexists.
      * by apply (B2 _ _ _ E2).
    + intros pre p suf E. apply split_in_app in E.
      destruct E as [(suf1 & E1 & ->)|(pre2 & E2 & ->)].
      * destruct (C1 _ _ _ E1) as (suf' & ->). by eexists.
      * by apply (C2 _ _ _ E2).
  - exists evs1. split; [exact L1|]. split; [|by split].
    intros pre p f suf E. destruct (F1 _ _ _ _ E) as [-> Er]. split; [reflexivity|].
    by injection Er as ->.
Qed.

Lemma obeys_fold_each {A B} (l : list A) (body : B -> A -> M S B) :
  (forall acc x, obeys (body acc x)) -> forall acc, obeys (fold_each l acc body).
Proof.
  intros Hbody. induction l as [|x l IH]; intros acc; cbn [fold_each].
  - apply obeys_quiet, quiet_ret.
  - apply obeys_bind; [apply Hbody|apply IH].
Qed.

Lemma obeys_for_each {A} (l : list A) (body : A -> M S unit) :
  (forall x, obeys (body x)) -> obeys (for_each l body).
Proof.
  intros Hbody. induction l as [|x l IH]; cbn [for_each].
  - apply obeys_quiet, quiet_ret.
  - apply obeys_bind; [apply Hbody|]. intros _. apply IH.
Qed.

Lemma obeys_single {A} (r : Result A) (ev : Event) :
  plain ev -> failed_load_last r [ev] /\ loads_follow [ev].
Proof.
  intros Hev. split; [|split]; intros pre p; intros;
    destruct pre as [|? [|? ?]]; simplify_eq/=; by cbn in Hev.
Qed.

Lemma obeys_emit (ev : Event) : plain ev -> obeys (emit ev : M S unit).
Proof. intros Hev w. exists [ev]. split; [reflexivity|]. by apply obeys_single. Qed.

Lemma obeys_ensure_dir (save_dir : string) : obeys (ensure_dir save_dir : M S unit).
Proof.
  intros w. unfold ensure_dir. destruct (decide (save_dir ∈ dirs w)).
  - exists []. rewrite app_nil_r. split; [reflexivity|].
    split; [|split]; intros pre p; intros; by destruct pre.
  - exists [EvMakedirs save_dir]. split; [reflexivity|]. by apply obeys_single.
Qed.

(** The loader is asked for a path and the path is read at once. *)
Lemma obeys_request_and_load (self : ImageGenerator) (with_alpha : bool) :
  obeys (path <- (if with_alpha then loader_cell else loader_background) ;;
         _load_image self path true with_alpha : M S ndarray).
Proof.
  intros w. unfold bind, _load_image.
  destruct with_alpha; unfold loader_cell, loader_background.
  - destruct (get_random_cell (loader w) (py_rng w)) as [[p s] g].
    destruct (imread p IMREAD_UNCHANGED) as [a|] eqn:E; cbn.
    + exists [EvCell p; EvImread p IMREAD_UNCHANGED true].
      split; [by rewrite <- app_assoc|]. split; [|split]; intros pre q; intros;
        destruct pre as [|? [|? [|? ?]]]; simplify_eq/=.
      eexists. unfold decodes. by rewrite E.
    + exists [EvCell p; EvImread p IMREAD_UNCHANGED false].
      split; [by rewrite <- app_assoc|]. split; [|split]; intros pre q; intros;
        destruct pre as [|? [|? [|? ?]]]; simplify_eq/=; [done|].
      eexists. unfold decodes. by rewrite E.
  - destruct (get_random_background (loader w) (py_rng w)) as [[p s] g].
    destruct (imread p IMREAD_COLOR) as [a|] eqn:E; cbn.
    + exists [EvBackground p; EvImread p IMREAD_COLOR true].
      split; [by rewrite <- app_assoc|]. split; [|split]; intros pre q; intros;
        destruct pre as [|? [|? [|? ?]]]; simplify_eq/=.
      eexists. unfold decodes. by rewrite E.
    + exists [EvBackground p; EvImread p IMREAD_COLOR false].
      split; [by rewrite <- app_assoc|]. split; [|split]; intros pre q; intros;
        destruct pre as [|? [|? [|? ?]]]; simplify_eq/=; [done|].
      eexists. unfold decodes. by rewrite E.
Qed.

End ProtocolRules.

Section ProtocolOfGenerator.

Context `{Cv2} {S : Type} `{DatasetLoader S}.
Variable self : ImageGenerator.

Lemma obeys_overlay_loop (coords : list Coord) (l : list Z) (background : ndarray) :
  obeys (fold_each l background (fun background i =>
           path <- loader_cell ;;
           cell <- _load_image self path true true ;;
           transparency <- Random.uniform (6 # 10) 1 ;;
           coord <- lift (coords_at coords i) ;;
           _overlay self background cell coord transparency) : M S ndarray).
Proof.
  apply obeys_fold_each. intros acc i.
  eapply obeys_ext; [intros w; symmetry; apply bind_assoc|].
  apply obeys_bind; [apply (obeys_request_and_load self true)|]. intros cell.
  apply obeys_quiet.
  apply quiet_bind; [apply quiet_uniform|]. intros transparency.
  apply quiet_bind; [apply quiet_lift|]. intros coord. apply quiet_overlay.
Qed.

Lemma obeys_generate_image : obeys (_generate_image self : M S ndarray).
Proof.
  unfold _generate_image.
  apply obeys_bind; [apply obeys_quiet, quiet_randint|]. intros n.
  apply obeys_bind; [apply obeys_quiet, quiet_generate_cell_coords|]. intros coords.
  eapply obeys_ext; [intros w; symmetry; apply bind_assoc|].
  apply obeys_bind; [apply (obeys_request_and_load self false)|]. intros background.
  apply obeys_bind; [apply obeys_overlay_loop|]. intros background'.
  apply obeys_quiet, quiet_apply_random_noise.
Qed.

Lemma obeys_generate_and_save (save_dir : string) :
  obeys (generate_and_save self save_dir : M S unit).
Proof.
  unfold generate_and_save.
  apply obeys_bind; [apply obeys_ensure_dir|]. intros _.
  apply obeys_for_each. intros idx.
  apply obeys_bind; [apply obeys_generate_image|]. intros img.
  by apply obeys_emit.
Qed.

End ProtocolOfGenerator.

(* ------------------------------------------------------------------ *)
(** * The constructor *)

(** The constructor with a seed [np.random.seed] accepts: both
    generators are replaced, whatever they were. *)
Lemma init_seeded `{Cv2} {S : Type} `{DatasetLoader S} `{Seeding}
    (img_size : Z * Z) (num_imgs min_cells max_cells seed : Z) (w : World S) :
  (seed <? 0) || (2 ^ 32 <=? seed) = false ->
  init img_size num_imgs min_cells max_cells (Some seed) w
  = (Ok (mk_generator img_size num_imgs min_cells max_cells),
     mk_world (random_seed seed) (np_random_seed seed) (loader w) (dirs w) (log w)).
Proof. intros E. unfold init, np_seed, bind, set_py_rng. rewrite E. reflexivity. Qed.

(** The constructor with a seed [np.random.seed] refuses: it raises,
    having reseeded [random] only. *)
Lemma init_seeded_refused `{Cv2} {S : Type} `{DatasetLoader S} `{Seeding}
    (img_size : Z * Z) (num_imgs min_cells max_cells seed : Z) (w : World S) :
  (seed <? 0) || (2 ^ 32 <=? seed) = true ->
  init img_size num_imgs min_cells max_cells (Some seed) w
  = (Raise (ValueError "Seed must be between 0 and 2**32 - 1"),
     mk_world (random_seed seed) (np_rng w) (loader w) (dirs w) (log w)).
Proof. intros E. unfold init, np_seed, bind, set_py_rng. rewrite E. reflexivity. Qed.

(* ------------------------------------------------------------------ *)
(** * The invariants of the image *)

Section Invariants.

Context `{Cv2} {S : Type} `{DatasetLoader S}.
Variable self : ImageGenerator.

Lemma load_image_yields (path : string) (with_alpha : bool) :
  yields (_load_image self path true with_alpha : M S ndarray)
    (fun b => shape0 b = fst (img_size self) /\ shape1 b = snd (img_size self)
              /\ (with_alpha = false -> shape2 b = 3 /\ uint8_array b)).
Proof.
  unfold _load_image.
  destruct (imread path _) as [a|] eqn:Ea.
  - eapply yields_bind; [apply yields_any|]. intros _ _.
    apply yields_lift. intros b Eb.
    destruct (imread_nonempty _ _ _ Ea) as (Ha0 & Ha1 & _).
    destruct (Z_lt_le_dec 0 (snd (img_size self))) as [Hw|Hw];
      [destruct (Z_lt_le_dec 0 (fst (img_size self))) as [Hh|Hh]|].
    + destruct (resize_ok a _ _ Ha0 Ha1 Hw Hh) as (b' & Eb' & (B0 & B1 & B2) & Hu).
      rewrite Eb in Eb'. injection Eb' as <-.
      do 2 (split; [assumption|]).
      intros ->. destruct (imread_color _ _ Ea) as [Hc3 Hu8].
      split; [congruence|auto].
    + rewrite resize_empty in Eb by (right; exact Hh). discriminate.
    + rewrite resize_empty in Eb by (left; exact Hw). discriminate.
  - eapply yields_bind; [apply yields_any|]. intros _ _.
    intros w a w' E. discriminate.
Qed.

Lemma overlay_yields (background cell : ndarray) (coord : Coord) (transparency : Q) :
  yields (_overlay self background cell coord transparency : M S ndarray)
         (fun b => keeps background b).
Proof.
  unfold _overlay.
  eapply yields_bind; [apply yields_any|]. intros u _.
  eapply yields_bind; [apply yields_any|]. intros c _.
  eapply yields_bind; [apply yields_any|]. intros [[rotated new_h] new_w] _.
  apply yields_lift. intros b. apply clip_and_blend_keeps.
Qed.

Lemma noise_image_yields (image : ndarray) (percent : Q) :
  yields (noise_image image percent : M S ndarray) (fun b => keeps image b).
Proof.
  unfold noise_image.
  apply yields_fold_each with (I := fun b => keeps image b); [|apply keeps_refl].
  intros row i Hrow.
  apply yields_fold_each with (I := fun b => keeps image b); [|assumption].
  intros acc j Hacc.
  eapply yields_bind; [apply yields_any|]. intros r _.
  destruct (r ?= percent / 100)%Q; try (by apply yields_ret).
  eapply yields_bind; [apply returns_yields, (np_randint_returns 0 256 3); lia|].
  intros v [_ Hv]. apply yields_lift. intros b Eb.
  eapply keeps_trans; [exact Hacc|]. eapply set_pixel_keeps; eassumption.
Qed.

Lemma apply_random_noise_yields (image : ndarray) :
  yields (_apply_random_noise image : M S ndarray) (fun b => keeps image b).
Proof.
  unfold _apply_random_noise.
  eapply yields_bind; [apply yields_any|]. intros p _. apply noise_image_yields.
Qed.

Lemma keeps_well_formed (a b : ndarray) :
  well_formed self a -> keeps a b -> well_formed self b.
Proof.
  intros [(A0 & A1 & A2) Au] (K0 & K1 & K2 & Ku).
  split; [unfold has_shape; lia|by apply Ku].
Qed.

Lemma generate_image_yields :
  yields (_generate_image self : M S ndarray) (well_formed self).
Proof.
  unfold _generate_image.
  eapply yields_bind; [apply yields_any|]. intros n _.
  eapply yields_bind; [apply yields_any|]. intros coords _.
  eapply yields_bind; [apply yields_any|]. intros path _.
  eapply yields_bind; [apply load_image_yields|].
  intros background (B0 & B1 & Bcolor). destruct (Bcolor eq_refl) as [B2 Bu].
  eapply yields_bind.
  - apply yields_fold_each with (I := well_formed self).
    + intros bg i Hbg.
      eapply yields_bind; [apply yields_any|]. intros p _.
      eapply yields_bind; [apply yields_any|]. intros cell _.
      eapply yields_bind; [apply yields_any|]. intros transparency _.
      eapply yields_bind; [apply yields_any|]. intros coord _.
      intros w b w' E. eapply keeps_well_formed; [exact Hbg|].
      eapply overlay_yields. exact E.
    + split; [|assumption]. unfold has_shape. auto.
  - intros bg Hbg w b w' E. eapply keeps_well_formed; [exact Hbg|].
    eapply apply_random_noise_yields. exact E.
Qed.

End Invariants.

(* ------------------------------------------------------------------ *)
(** * The claims of the specification *)







(** C3, as amended.  The margin kept at the far edges is [int(0.01 * H)],
    the hundredth of the side rounded down, not up.  For a target size
    with non-negative sides, [_generate_cell_coords] returns [count]
    placements, each made of two calls of [random.randint], a row of
    [[0, H - floor(0.01 H)]] and a column of [[0, W - floor(0.01 W)]],
    taking the next two words of the generator; and every list of
    [count] such placements, repeated ones included, is returned for
    some state of the generator. *)
Theorem cell_coords_sampled_in_range `{Cv2} {S : Type} `{DatasetLoader S}
    (self : ImageGenerator) (count : Z) (w : World S) :
  0 <= fst (img_size self) -> 0 <= snd (img_size self) ->
  Num.percent_of (fst (img_size self)) = fst (img_size self) / 100
  /\ Num.percent_of (snd (img_size self)) = snd (img_size self) / 100
  /\ (exists coords,
        _generate_cell_coords self count w
        = (Ok coords,
           with_py_rng w (mk_rng (tape (py_rng w))
                                 (pos (py_rng w) + 2 * Z.to_nat count)))
        /\ length coords = Z.to_nat count
        /\ Forall (placement_in_range self) coords)
  /\ (forall coords,
        length coords = Z.to_nat count ->
        Forall (placement_in_range self) coords ->
        exists w',
          _generate_cell_coords self count (with_py_rng w (replay (words_of coords)))
          = (Ok coords, w')).
Proof.
  intros Hh Hw.
  assert (Hrange : length (range count) = Z.to_nat count) by apply length_seqZ.
  split; [rewrite percent_of_quot; apply Z.quot_div_nonneg; lia|].
  split; [rewrite percent_of_quot; apply Z.quot_div_nonneg; lia|].
  split.
  - destruct (collect_coords_draws self (range count) Hh Hw w) as (coords & E & Hlen & Hall).
    exists coords. rewrite <- Hrange. split; [exact E|]. by split.
  - intros coords Hlen Hall.
    apply (collect_coords_replay self coords Hall Z (range count) _ 0%nat w); [congruence|].
    intros k _. reflexivity.
Qed.

Lemma cell_coords_sampled_in_range_witness :
  Num.percent_of 480 = 480 / 100
  /\ Num.percent_of 640 = 640 / 100
  /\ (exists coords,
        _generate_cell_coords default_generator 2 (Stub.fresh 5 tt)
        = (Ok coords,
           with_py_rng (Stub.fresh 5 tt)
             (mk_rng (tape (py_rng (Stub.fresh 5 tt)))
                     (pos (py_rng (Stub.fresh 5 tt)) + 2 * Z.to_nat 2)))
        /\ length coords = Z.to_nat 2
        /\ Forall (placement_in_range default_generator) coords)
  /\ (forall coords,
        length coords = Z.to_nat 2 ->
        Forall (placement_in_range default_generator) coords ->
        exists w',
          _generate_cell_coords default_generator 2
            (with_py_rng (Stub.fresh 5 tt) (replay (words_of coords)))
          = (Ok coords, w')).
Proof.
  apply (cell_coords_sampled_in_range default_generator 2 (Stub.fresh 5 tt)); cbn; lia.
Defined.

(** C3, as stated, fails: for the default height 480 the margin in the
    code is 4, the one with the ceiling is 5, and row 476 is sampled. *)
Lemma cell_coords_row_above_ceiling_bound :
  let w : World unit := with_py_rng (Stub.fresh 5 tt) (mk_rng (fun _ => 476%N) 0) in
  fst (_generate_cell_coords default_generator 1 w) = Ok [mk_coord 476 476]
  /\ Qceiling (inject_Z 480 * (1 # 100)) = 5
  /\ ~ (476 <= 480 - Qceiling (inject_Z 480 * (1 # 100))).
Proof.
  cbv zeta. split; [vm_compute; reflexivity|]. split; [vm_compute; reflexivity|].
  vm_compute. intros Hle. apply Hle. reflexivity.
Qed.



(** C5, as amended.  [_rotate_cell] draws the angle with one call of
    [randint(0, 360)] (so every integer of [[0, 360]] can come out), asks
    for the rotation about [(cell_w // 2, cell_h // 2)], and warps onto a
    canvas whose sides are the extents of the rotated sprite computed
    from the absolute values of the two entries of the first row of the
    matrix, with their fractions dropped: each side of the canvas is
    below the extent by less than one pixel. *)
Theorem rotate_cell_canvas `{Cv2} {S : Type}
    (cell : ndarray) (cell_h cell_w : Z) (w : World S) :
  0 < shape0 cell -> 0 < shape1 cell -> 1 <= cell_h -> 1 <= cell_w ->
  let angle := Z.of_N (tape (py_rng w) (pos (py_rng w))) mod 361 in
  let matrix := getRotationMatrix2D (cell_w / 2, cell_h / 2) angle 1 in
  let extent := rotated_extent matrix cell_h cell_w in
  exists rotated new_h new_w w',
    _rotate_cell cell cell_h cell_w w = (Ok (rotated, new_h, new_w), w')
    /\ 0 <= angle <= 360
    /\ (new_h, new_w) = rotated_size matrix cell_h cell_w
    /\ (inject_Z new_h <= fst extent /\ fst extent < inject_Z new_h + 1)%Q
    /\ (inject_Z new_w <= snd extent /\ snd extent < inject_Z new_w + 1)%Q
    /\ has_shape rotated new_h new_w (shape2 cell).
Proof.
  intros Hc0 Hc1 Hh Hw angle matrix extent.
  assert (Hangle : 0 <= angle <= 360).
  { unfold angle.
    pose proof (Z.mod_pos_bound (Z.of_N (tape (py_rng w) (pos (py_rng w)))) 361). lia. }
  destruct (rotated_size_lower matrix cell_h cell_w 1) as [Hnh Hnw];
    [apply rotation_unit|lia..|].
  destruct (rotated_extent_nonneg matrix cell_h cell_w) as [He0 He1]; [lia..|].
  pose proof (rotated_size_extent matrix cell_h cell_w) as Esize.
  fold extent in Esize, He0, He1.
  destruct (rotated_size matrix cell_h cell_w) as [new_h new_w] eqn:Erot.
  cbn [fst snd] in Hnh, Hnw. injection Esize as Enh Enw.
  unfold _rotate_cell, Random.randint. cbn [Z.ltb Z.compare].
  unfold bind at 1. unfold bind at 1. unfold Random.draw, rng_next, ret. cbn [fst snd].
  change (0 + Z.of_N (tape (py_rng w) (pos (py_rng w))) mod (360 - 0 + 1)) with angle.
  fold matrix. rewrite Erot.
  match goal with |- context [warpAffine cell ?m (new_w, new_h)] =>
    destruct (warpAffine_ok cell m new_w new_h) as (b & Eb & Hb & _); [lia..|]
  end.
  unfold bind, lift. rewrite Eb. unfold ret.
  eexists b, new_h, new_w, _. split; [reflexivity|]. split; [exact Hangle|].
  split; [reflexivity|].
  split; [rewrite Enh; by apply int_bounds|].
  split; [rewrite Enw; by apply int_bounds|]. exact Hb.
Qed.

Lemma rotate_cell_canvas_witness :
  let w := Stub.fresh 5 tt in
  let angle := Z.of_N (tape (py_rng w) (pos (py_rng w))) mod 361 in
  let matrix := getRotationMatrix2D (10 / 2, 10 / 2) angle 1 in
  let extent := rotated_extent matrix 10 10 in
  exists rotated new_h new_w w',
    _rotate_cell (Stub.constant 10 10 4 200) 10 10 w = (Ok (rotated, new_h, new_w), w')
    /\ 0 <= angle <= 360
    /\ (new_h, new_w) = rotated_size matrix 10 10
    /\ (inject_Z new_h <= fst extent /\ fst extent < inject_Z new_h + 1)%Q
    /\ (inject_Z new_w <= snd extent /\ snd extent < inject_Z new_w + 1)%Q
    /\ has_shape rotated new_h new_w 4.
Proof.
  apply (rotate_cell_canvas (Stub.constant 10 10 4 200) 10 10 (Stub.fresh 5 tt)); cbn; lia.
Defined.

(** C5, as stated, fails: a sprite of 10 x 10 pixels turned by 45
    degrees extends over more than 14.14 pixels, and its canvas has 14. *)
Lemma rotated_canvas_below_extent :
  rotated_size rotation_45_about_5_5 10 10 = (14, 14)
  /\ (inject_Z 14 + (14 # 100) < fst (rotated_extent rotation_45_about_5_5 10 10))%Q
  /\ (inject_Z 14 + (14 # 100) < snd (rotated_extent rotation_45_about_5_5 10 10))%Q.
Proof. split; [vm_compute; reflexivity|]. split; vm_compute; reflexivity. Qed.



(** C7.  Every path the loader hands out is read at once, a background
    as a colour image and a sprite as it is.  When the path does not
    decode, the failed read is the last thing the run does - no other
    path is asked for, nothing is read or written after it - and the run
    ends with the [ValueError] whose message names the path; whatever
    was written before stays written. *)
Theorem undecodable_path_aborts_run `{Cv2} {S : Type} `{DatasetLoader S}
    (self : ImageGenerator) (save_dir : string) (w : World S) :
  exists evs,
    log (snd (generate_and_save self save_dir w)) = log w ++ evs
    /\ (forall pre p suf,
          evs = pre ++ EvBackground p :: suf ->
          imread p IMREAD_COLOR = None ->
          suf = [EvImread p IMREAD_COLOR false]
          /\ fst (generate_and_save self save_dir w) = Raise (ValueError (load_error p)))
    /\ (forall pre p suf,
          evs = pre ++ EvCell p :: suf ->
          imread p IMREAD_UNCHANGED = None ->
          suf = [EvImread p IMREAD_UNCHANGED false]
          /\ fst (generate_and_save self save_dir w) = Raise (ValueError (load_error p))).
Proof.
  destruct (obeys_generate_and_save self save_dir w) as (evs & L & F & B & C).
  exists evs. split; [exact L|]. split.
  - intros pre p suf E Hnone. destruct (B _ _ _ E) as (suf' & ->).
    unfold decodes in E. rewrite Hnone in E.
    assert (E' : evs = (pre ++ [EvBackground p]) ++ EvImread p IMREAD_COLOR false :: suf')
      by (by rewrite <- app_assoc).
    destruct (F _ _ _ _ E') as [-> Hr]. unfold decodes. rewrite Hnone. by split.
  - intros pre p suf E Hnone. destruct (C _ _ _ E) as (suf' & ->).
    unfold decodes in E. rewrite Hnone in E.
    assert (E' : evs = (pre ++ [EvCell p]) ++ EvImread p IMREAD_UNCHANGED false :: suf')
      by (by rewrite <- app_assoc).
    destruct (F _ _ _ _ E') as [-> Hr]. unfold decodes. rewrite Hnone. by split.
Qed.

Lemma undecodable_path_aborts_run_witness :
  let self := mk_generator (20, 30) 1 1 1 in
  let w := Stub.fresh 5 (Stub.mk_script [] ["missing.png"]) in
  imread "missing.png" IMREAD_UNCHANGED = None
  /\ fst (generate_and_save self "out" w) = Raise (ValueError (load_error "missing.png"))
  /\ written (log (snd (generate_and_save self "out" w))) = [].
Proof.
  cbv zeta. split; [reflexivity|].
  destruct (undecodable_path_aborts_run (mk_generator (20, 30) 1 1 1) "out"
              (Stub.fresh 5 (Stub.mk_script [] ["missing.png"])))
    as (evs & L & _ & C).
  vm_compute in L. subst evs. split; [|vm_compute; reflexivity].
  apply (C [EvMakedirs "out"; EvBackground "background.png";
            EvImread "background.png" IMREAD_COLOR true]
           "missing.png" [EvImread "missing.png" IMREAD_UNCHANGED false]);
    reflexivity.
Defined.

(** A batch whose second background does not decode: the first image
    stays written, the run ends with the error naming the path. *)
Example partial_output_is_kept :
  let self := mk_generator (20, 30) 3 0 0 in
  let w := Stub.fresh 5 (Stub.mk_script ["background.png"; "gone.png"] []) in
  fst (generate_and_save self "out" w) = Raise (ValueError (load_error "gone.png"))
  /\ length (written (log (snd (generate_and_save self "out" w)))) = 1%nat.
Proof. cbv zeta. split; vm_compute; reflexivity. Qed.

(** C8.  Two runs constructed with the same integer seed, over the same
    loader and the same directories, produce the same outcome and the
    same sequence of requests and written images, whatever the states of
    the two global generators were before: the constructor resets both.
    For a seed [np.random.seed] accepts, the two runs end in the same
    state altogether, the generators included, so every random choice
    made on the way was the same. *)
Theorem seeded_runs_are_identical `{Cv2} {S : Type} `{DatasetLoader S} `{Seeding}
    (img_size : Z * Z) (num_imgs min_cells max_cells seed : Z) (save_dir : string)
    (w1 w2 : World S) :
  loader w1 = loader w2 -> dirs w1 = dirs w2 -> log w1 = log w2 ->
  let run := run_generator img_size num_imgs min_cells max_cells (Some seed) save_dir in
  fst (run w1) = fst (run w2)
  /\ log (snd (run w1)) = log (snd (run w2))
  /\ written (log (snd (run w1))) = written (log (snd (run w2)))
  /\ loader (snd (run w1)) = loader (snd (run w2))
  /\ dirs (snd (run w1)) = dirs (snd (run w2))
  /\ (0 <= seed < 2 ^ 32 -> run w1 = run w2).
Proof.
  intros Hl Hd Hg run. unfold run, run_generator, bind.
  destruct ((seed <? 0) || (2 ^ 32 <=? seed)) eqn:Eseed.
  - rewrite !(init_seeded_refused _ _ _ _ _ _ Eseed). cbn. rewrite Hg, Hl, Hd.
    do 5 (split; [reflexivity|]). intros Hseed.
    apply orb_true_iff in Eseed. destruct Eseed as [E|E]; lia.
  - rewrite !(init_seeded _ _ _ _ _ _ Eseed). by rewrite Hl, Hd, Hg.
Qed.

Lemma seeded_runs_are_identical_witness :
  let run := run_generator (20, 30) 2 1 3 (Some 42) "out" in
  fst (run (Stub.fresh 5 tt)) = fst (run (Stub.fresh 6 tt))
  /\ log (snd (run (Stub.fresh 5 tt))) = log (snd (run (Stub.fresh 6 tt)))
  /\ written (log (snd (run (Stub.fresh 5 tt)))) = written (log (snd (run (Stub.fresh 6 tt))))
  /\ loader (snd (run (Stub.fresh 5 tt))) = loader (snd (run (Stub.fresh 6 tt)))
  /\ dirs (snd (run (Stub.fresh 5 tt))) = dirs (snd (run (Stub.fresh 6 tt)))
  /\ (0 <= 42 < 2 ^ 32 -> run (Stub.fresh 5 tt) = run (Stub.fresh 6 tt)).
Proof.
  apply (seeded_runs_are_identical (20, 30) 2 1 3 42 "out"
           (Stub.fresh 5 tt) (Stub.fresh 6 tt)); reflexivity.
Defined.

(** Without a seed the outcome does depend on the state of the
    generators: the two states above give different images. *)
Example unseeded_runs_differ :
  let run := run_generator (20, 30) 1 1 3 None "out" in
  first_item (snd (run (Stub.fresh 5 tt))) = Some 222
  /\ first_item (snd (run (Stub.fresh 6 tt))) = Some 10.
Proof. cbv zeta. split; vm_compute; reflexivity. Qed.

(** C9.  Whenever they return, the load of the background with its
    resize gives an array of shape (H, W, 3) with 8-bit items, and the
    overlay and the noise give back an array of the shape they were
    given, with 8-bit items if it had 8-bit items; so every image
    [_generate_image] returns has the shape (H, W, 3) and 8-bit items.
    And it does return one when every path decodes, the sides have at
    least twenty pixels and [min_cells <= max_cells]. *)
Theorem pipeline_keeps_range_and_size `{Cv2} {S : Type} `{DatasetLoader S}
    (self : ImageGenerator) :
  (forall path (w w' : World S) b,
      _load_image self path true false w = (Ok b, w') ->
      has_shape b (fst (img_size self)) (snd (img_size self)) 3 /\ uint8_array b)
  /\ (forall background cell coord transparency (w w' : World S) b,
      _overlay self background cell coord transparency w = (Ok b, w') ->
      keeps background b)
  /\ (forall image percent (w w' : World S) b,
      noise_image image percent w = (Ok b, w') -> keeps image b)
  /\ (forall image (w w' : World S) b,
      _apply_random_noise image w = (Ok b, w') -> keeps image b)
  /\ (forall (w w' : World S) img,
      _generate_image self w = (Ok img, w') ->
      has_shape img (fst (img_size self)) (snd (img_size self)) 3 /\ uint8_array img)
  /\ (loader_decodes ->
      20 <= fst (img_size self) -> 20 <= snd (img_size self) ->
      min_cells self <= max_cells self ->
      forall w : World S, exists img w',
        _generate_image self w = (Ok img, w')
        /\ has_shape img (fst (img_size self)) (snd (img_size self)) 3
        /\ uint8_array img).
Proof.
  split.
  { intros path w w' b E.
    destruct (load_image_yields self path false w b w' E) as (B0 & B1 & Bcolor).
    destruct (Bcolor eq_refl) as [B2 Bu]. unfold has_shape. auto. }
  split; [intros ? ? ? ? w w' b E; eapply overlay_yields; exact E|].
  split; [intros ? ? w w' b E; eapply noise_image_yields; exact E|].
  split; [intros ? w w' b E; eapply apply_random_noise_yields; exact E|].
  split; [intros w w' img E; eapply (generate_image_yields self); exact E|].
  intros Hdec Hh Hw Hcells w.
  destruct (generate_image_returns self Hdec Hh Hw Hcells w) as (img & w' & E & Himg & _).
  exists img, w'. split; [exact E|exact Himg].
Qed.

Lemma pipeline_keeps_range_and_size_witness :
  let self := mk_generator (20, 30) 2 1 3 in
  exists img w',
    _generate_image self (Stub.fresh 5 tt) = (Ok img, w')
    /\ has_shape img 20 30 3 /\ uint8_array img.
Proof.
  cbv zeta.
  destruct (pipeline_keeps_range_and_size (mk_generator (20, 30) 2 1 3))
    as (_ & _ & _ & _ & _ & Hreturns).
  apply (Hreturns fixed_loader_decodes); cbn; lia.
Defined.


(** C10.  With [min_cells > max_cells] the generation of an image raises
    at the draw of the cell count and leaves the state as it was: no
    word was drawn, no path was asked of the loader, nothing was read or
    written.  A batch of at least one image stops there, having at most
    created its directory. *)
Theorem generate_image_empty_cell_range `{Cv2} {S : Type} `{DatasetLoader S}
    (self : ImageGenerator) (save_dir : string) (w : World S) :
  max_cells self < min_cells self ->
  exists msg,
    _generate_image self w = (Raise (ValueError msg), w)
    /\ (0 < num_imgs self ->
        generate_and_save self save_dir w
        = (Raise (ValueError msg), snd (ensure_dir save_dir w))
        /\ written (log (snd (ensure_dir save_dir w))) = written (log w)).
Proof.
  intros Hcells.
  assert (Hgen : forall w0 : World S,
             _generate_image self w0
             = (Raise (ValueError "empty range for randrange()"), w0)).
  { intros w0. unfold _generate_image, bind, Random.randint.
    destruct (max_cells self <? min_cells self) eqn:E; [reflexivity|lia]. }
  eexists. split; [apply Hgen|]. intros Hn.
  split; [|apply ensure_dir_written].
  rewrite generate_and_save_loop. unfold range.
  rewrite seqZ_cons by lia. cbn [for_each].
  unfold bind at 1. unfold save_one at 1. unfold bind at 1. rewrite Hgen. reflexivity.
Qed.

Lemma generate_image_empty_cell_range_witness :
  exists msg,
    _generate_image (mk_generator (20, 30) 2 3 1) (Stub.fresh 5 tt)
    = (Raise (ValueError msg), Stub.fresh 5 tt)
    /\ (0 < 2 ->
        generate_and_save (mk_generator (20, 30) 2 3 1) "out" (Stub.fresh 5 tt)
        = (Raise (ValueError msg), snd (ensure_dir "out" (Stub.fresh 5 tt)))
        /\ written (log (snd (ensure_dir "out" (Stub.fresh 5 tt))))
           = written (log (Stub.fresh 5 tt))).
Proof.
  apply (generate_image_empty_cell_range (mk_generator (20, 30) 2 3 1) "out"
           (Stub.fresh 5 tt)).
  cbn. lia.
Defined.

(* ------------------------------------------------------------------ *)
(** * Further properties: the blend *)

(** The store of a float that is an 8-bit integer keeps it. *)
Lemma to_uint8_of_integer (v : Q) (n : Z) :
  (v == inject_Z n)%Q -> 0 <= n <= 255 -> Num.to_uint8 v = n.
Proof.
  intros Hv Hn. destruct (inject_Z_range _ _ _ Hn) as [H0 H255].
  rewrite to_uint8_floor.
  - rewrite Hv. apply Qfloor_Z.
  - rewrite Hv. exact H0.
  - rewrite Hv. eapply Qle_lt_trans; [exact H255|reflexivity].
Qed.


(** The blend of an alpha sprite, item by item: inside the clipped
    window the three colour channels receive the blended value, every
    other item is the background's. *)
Lemma blend_window_items (background cell : ndarray) (coord : Coord)
    (cell_h cell_w : Z) (transparency : Q) :
  shape2 cell = 4 ->
  shape0 cell = cell_h -> shape1 cell = cell_w -> 0 <= cell_h -> 0 <= cell_w ->
  0 <= coord_h coord <= shape0 background ->
  0 <= coord_w coord <= shape1 background ->
  3 <= shape2 background ->
  let rows := clipped (shape0 background) (coord_h coord) cell_h in
  let cols := clipped (shape1 background) (coord_w coord) cell_w in
  exists background',
    clip_and_blend background cell coord cell_h cell_w transparency = Ok background'
    /\ 0 <= rows <= cell_h /\ coord_h coord + rows <= shape0 background
    /\ 0 <= cols <= cell_w /\ coord_w coord + cols <= shape1 background
    /\ (forall i j c,
          coord_h coord <= i < coord_h coord + rows ->
          coord_w coord <= j < coord_w coord + cols ->
          0 <= c < 3 ->
          item background' i j c = blended background cell coord transparency i j c)
    /\ (forall i j c,
          ~ (coord_h coord <= i < coord_h coord + rows
             /\ coord_w coord <= j < coord_w coord + cols
             /\ 0 <= c < 3) ->
          item background' i j c = item background i j c).
Proof.
  intros Hc4 Hs0 Hs1 Hch Hcw Hh Hw Hc rows cols.
  destruct (blend_window_frame background cell coord cell_h cell_w transparency)
    as (b & Eb & Hitem & Hout); try assumption.
  fold rows cols in Hitem, Hout.
  assert (Hrows : rows = Z.min cell_h (shape0 background - coord_h coord))
    by apply clipped_min.
  assert (Hcols : cols = Z.min cell_w (shape1 background - coord_w coord))
    by apply clipped_min.
  exists b. split; [exact Eb|]. do 4 (split; [lia|]). split; [|exact Hout].
  intros i j c Hi Hj Hcc. rewrite Hitem, Hc4. unfold in_window. cbn [Z.eqb Pos.eqb andb].
  destruct (0 <=? c) eqn:?; [|lia]. destruct (c <? 3) eqn:?; [|lia].
  destruct (coord_h coord <=? i) eqn:?; [|lia].
  destruct (i <? coord_h coord + rows) eqn:?; [|lia].
  destruct (coord_w coord <=? j) eqn:?; [|lia].
  destruct (j <? coord_w coord + cols) eqn:?; [|lia].
  reflexivity.
Qed.

(** X1.  Blending at transparency 0 changes no item of an 8-bit
    background, whatever the sprite holds. *)
Theorem blend_at_transparency_zero (background cell : ndarray) (coord : Coord)
    (cell_h cell_w : Z) :
  shape0 cell = cell_h -> shape1 cell = cell_w -> 0 <= cell_h -> 0 <= cell_w ->
  0 <= coord_h coord <= shape0 background ->
  0 <= coord_w coord <= shape1 background ->
  3 <= shape2 background ->
  uint8_array background ->
  exists background',
    clip_and_blend background cell coord cell_h cell_w 0 = Ok background'
    /\ has_shape background' (shape0 background) (shape1 background) (shape2 background)
    /\ forall i j c, item background' i j c = item background i j c.
Proof.
  intros Hs0 Hs1 Hch Hcw Hh Hw Hc Hu.
  destruct (clip_and_blend_inside background cell coord cell_h cell_w 0)
    as (b & Eb & B0 & B1 & B2 & Hitem); try assumption.
  exists b. split; [exact Eb|]. split; [done|].
  intros i j c. rewrite Hitem.
  set (rows := clipped (shape0 background) (coord_h coord) cell_h).
  set (cols := clipped (shape1 background) (coord_w coord) cell_w).
  assert (Hrows : rows = Z.min cell_h (shape0 background - coord_h coord))
    by apply clipped_min.
  assert (Hcols : cols = Z.min cell_w (shape1 background - coord_w coord))
    by apply clipped_min.
  destruct (shape2 cell =? 4); cbn [andb]; [|reflexivity].
  destruct (0 <=? c) eqn:?; destruct (c <? 3) eqn:?; cbn [andb]; try reflexivity.
  unfold in_window.
  destruct (coord_h coord <=? i) eqn:?; destruct (i <? coord_h coord + rows) eqn:?;
    destruct (coord_w coord <=? j) eqn:?; destruct (j <? coord_w coord + cols) eqn:?;
    cbn [andb]; try reflexivity.
  unfold blended. apply to_uint8_of_integer; [|apply Hu; lia].
  unfold blend_value, blend_factor. field.
Qed.

Lemma blend_at_transparency_zero_witness :
  let background := Stub.constant 20 30 3 10 in
  exists background',
    clip_and_blend background (Stub.constant 8 8 4 200) (mk_coord 15 29) 8 8 0
    = Ok background'
    /\ has_shape background' 20 30 3
    /\ forall i j c, item background' i j c = item background i j c.
Proof.
  apply (blend_at_transparency_zero (Stub.constant 20 30 3 10) (Stub.constant 8 8 4 200)
           (mk_coord 15 29) 8 8); cbn; try (reflexivity || lia).
  intros i j c _ _ _. cbn. lia.
Defined.

(** X2.  Where the sprite is opaque (alpha 255) and the transparency is
    1, the blend replaces the three colour channels of the background
    by the sprite's, for 8-bit sprite values. *)
Theorem blend_opaque_replaces (background cell : ndarray) (coord : Coord)
    (cell_h cell_w : Z) :
  shape2 cell = 4 ->
  shape0 cell = cell_h -> shape1 cell = cell_w -> 0 <= cell_h -> 0 <= cell_w ->
  0 <= coord_h coord <= shape0 background ->
  0 <= coord_w coord <= shape1 background ->
  3 <= shape2 background ->
  let rows := clipped (shape0 background) (coord_h coord) cell_h in
  let cols := clipped (shape1 background) (coord_w coord) cell_w in
  exists background',
    clip_and_blend background cell coord cell_h cell_w 1 = Ok background'
    /\ forall i j c,
         coord_h coord <= i < coord_h coord + rows ->
         coord_w coord <= j < coord_w coord + cols ->
         0 <= c < 3 ->
         item cell (i - coord_h coord) (j - coord_w coord) 3 = 255 ->
         0 <= item cell (i - coord_h coord) (j - coord_w coord) c <= 255 ->
         item background' i j c = item cell (i - coord_h coord) (j - coord_w coord) c.
Proof.
  intros Hc4 Hs0 Hs1 Hch Hcw Hh Hw Hc rows cols.
  destruct (blend_window_items background cell coord cell_h cell_w 1)
    as (b & Eb & _ & _ & _ & _ & Hin & _); try assumption.
  exists b. split; [exact Eb|].
  intros i j c Hi Hj Hcc Halpha Hs. rewrite (Hin i j c Hi Hj Hcc).
  unfold blended. apply to_uint8_of_integer; [|exact Hs].
  unfold blend_value, blend_factor. rewrite Halpha. field.
Qed.

Lemma blend_opaque_replaces_witness :
  let background := Stub.constant 20 30 3 10 in
  let cell :=
    {| shape0 := 8; shape1 := 8; shape2 := 4;
       item := fun _ _ c => if c =? 3 then 255 else 200 |} in
  let rows := clipped 20 15 8 in
  let cols := clipped 30 29 8 in
  exists background',
    clip_and_blend background cell (mk_coord 15 29) 8 8 1 = Ok background'
    /\ forall i j c,
         15 <= i < 15 + rows -> 29 <= j < 29 + cols -> 0 <= c < 3 ->
         item cell (i - 15) (j - 29) 3 = 255 ->
         0 <= item cell (i - 15) (j - 29) c <= 255 ->
         item background' i j c = item cell (i - 15) (j - 29) c.
Proof.
  apply (blend_opaque_replaces (Stub.constant 20 30 3 10)
           {| shape0 := 8; shape1 := 8; shape2 := 4;
              item := fun _ _ c => if c =? 3 then 255 else 200 |}
           (mk_coord 15 29) 8 8); cbn; (reflexivity || lia).
Defined.



(** X4.  The sprite is only ever clipped at the far edges: for a row
    offset above the first row whose sprite reaches into the image, the
    blend of an alpha sprite of two rows or more raises, before any item
    is stored. *)
Theorem blend_above_first_row_raises (background cell : ndarray) (coord : Coord)
    (cell_h cell_w : Z) (transparency : Q) :
  shape2 cell = 4 -> shape0 cell = cell_h ->
  2 <= cell_h <= shape0 background ->
  coord_h coord < 0 -> 0 <= coord_h coord + cell_h ->
  0 < shape2 background ->
  clip_and_blend background cell coord cell_h cell_w transparency
  = Raise (ValueError "operands could not be broadcast together").
Proof.
  intros Hc4 Hs0 Hch Hneg Hreach Hc. unfold clip_and_blend.
  destruct (coord_h coord + cell_h >? shape0 background) eqn:Eclip; [lia|].
  change (shape2 (crop cell _ _)) with (shape2 cell). rewrite Hc4. cbn [Z.eqb Pos.eqb].
  change (range 3) with [0; 1; 2]. cbn [blend_channels]. unfold blend_channel.
  destruct (shape2 background <=? 0) eqn:E0; [lia|].
  assert (Ecell : shape0 (crop cell cell_h
                    (if coord_w coord + cell_w >? shape1 background
                     then shape1 background - coord_w coord else cell_w)) = cell_h).
  { cbn [crop shape0]. rewrite Hs0. apply prefix_length_inside. lia. }
  rewrite Ecell.
  assert (Erows : Slice.length (shape0 background) (coord_h coord)
                               (coord_h coord + cell_h) = 0).
  { unfold Slice.length, Slice.clamp.
    destruct (coord_h coord + cell_h <? 0) eqn:E1; [lia|].
    destruct (coord_h coord <? 0) eqn:E2; [|lia]. lia. }
  rewrite Erows. unfold Np.broadcast.
  destruct (cell_h =? 0) eqn:Ea; [lia|]. destruct (cell_h =? 1) eqn:Eb; [lia|].
  reflexivity.
Qed.

Lemma blend_above_first_row_raises_witness :
  clip_and_blend (Stub.constant 20 30 3 10) (Stub.constant 8 8 4 200)
                 (mk_coord (-3) 5) 8 8 (3 # 4)
  = Raise (ValueError "operands could not be broadcast together").
Proof.
  apply (blend_above_first_row_raises (Stub.constant 20 30 3 10) (Stub.constant 8 8 4 200)
           (mk_coord (-3) 5) 8 8 (3 # 4)); cbn; (reflexivity || lia).
Defined.

(* ------------------------------------------------------------------ *)
(** * Further properties: the canvas of the rotated sprite *)

(** [int] of a float of [[n, n + 1)]. *)
Lemma int_of_unit_interval (x : Q) (n : Z) :
  0 <= n -> (inject_Z n <= x)%Q -> (x < inject_Z n + 1)%Q -> Num.int x = n.
Proof.
  intros Hn Hlo Hhi.
  assert (H0 : (0 <= x)%Q).
  { eapply Qle_trans; [|exact Hlo]. by rewrite (Zle_Qle 0) in Hn. }
  rewrite int_floor by exact H0.
  assert (n <= Qfloor x) by (rewrite <- (Qfloor_Z n); by apply Qfloor_resp_le).
  assert (Qfloor x < n + 1).
  { rewrite Zlt_Qlt, inject_Z_plus. eapply Qle_lt_trans; [apply Qfloor_le|exact Hhi]. }
  lia.
Qed.

(** X5.  A rotation matrix whose first row is (+-1, e) with both sides
    times |e| below one pixel (a turn by 0 or 180 degrees) keeps the
    size of the sprite; one whose first row is (e, +-1) (a quarter turn)
    swaps height and width. *)
Theorem rotated_size_at_right_angles (matrix : Matrix) (cell_h cell_w : Z) :
  0 <= cell_h -> 0 <= cell_w ->
  ((Qabs (m00 matrix) == 1)%Q ->
   (inject_Z cell_h * Qabs (m01 matrix) < 1)%Q ->
   (inject_Z cell_w * Qabs (m01 matrix) < 1)%Q ->
   rotated_size matrix cell_h cell_w = (cell_h, cell_w))
  /\ ((Qabs (m01 matrix) == 1)%Q ->
      (inject_Z cell_h * Qabs (m00 matrix) < 1)%Q ->
      (inject_Z cell_w * Qabs (m00 matrix) < 1)%Q ->
      rotated_size matrix cell_h cell_w = (cell_w, cell_h)).
Proof.
  intros Hh Hw.
  assert (Hh' : (0 <= inject_Z cell_h)%Q) by (by rewrite (Zle_Qle 0) in Hh).
  assert (Hw' : (0 <= inject_Z cell_w)%Q) by (by rewrite (Zle_Qle 0) in Hw).
  pose proof (Qabs_nonneg (m00 matrix)) as Ha. pose proof (Qabs_nonneg (m01 matrix)) as Hb.
  assert (Hha : (0 <= inject_Z cell_h * Qabs (m00 matrix))%Q)
    by (by apply Qmult_le_0_compat).
  assert (Hhb : (0 <= inject_Z cell_h * Qabs (m01 matrix))%Q)
    by (by apply Qmult_le_0_compat).
  assert (Hwa : (0 <= inject_Z cell_w * Qabs (m00 matrix))%Q)
    by (by apply Qmult_le_0_compat).
  assert (Hwb : (0 <= inject_Z cell_w * Qabs (m01 matrix))%Q)
    by (by apply Qmult_le_0_compat).
  unfold rotated_size. split.
  - intros E Eh Ew.
    assert (E1 : (inject_Z cell_h * Qabs (m00 matrix) == inject_Z cell_h)%Q)
      by (rewrite E; ring).
    assert (E2 : (inject_Z cell_w * Qabs (m00 matrix) == inject_Z cell_w)%Q)
      by (rewrite E; ring).
    f_equal; apply int_of_unit_interval; try assumption; lra.
  - intros E Eh Ew.
    assert (E1 : (inject_Z cell_h * Qabs (m01 matrix) == inject_Z cell_h)%Q)
      by (rewrite E; ring).
    assert (E2 : (inject_Z cell_w * Qabs (m01 matrix) == inject_Z cell_w)%Q)
      by (rewrite E; ring).
    f_equal; apply int_of_unit_interval; try assumption; lra.
Qed.

Lemma rotated_size_at_right_angles_witness :
  rotated_size rotation_90_about_5_2 4 10 = (10, 4).
Proof.
  apply (rotated_size_at_right_angles rotation_90_about_5_2 4 10); try lia;
    vm_compute; reflexivity.
Defined.

(** X6.  For a rotation matrix of scale 1 (entries of the first row of
    absolute value at most 1, whose absolute values add up to at least
    1), each side of the canvas is at least the shorter side of the
    sprite and at most the sum of its two sides. *)
Theorem rotated_size_bounds (matrix : Matrix) (cell_h cell_w : Z) :
  0 <= cell_h -> 0 <= cell_w ->
  (Qabs (m00 matrix) <= 1)%Q -> (Qabs (m01 matrix) <= 1)%Q ->
  (1 <= Qabs (m00 matrix) + Qabs (m01 matrix))%Q ->
  Z.min cell_h cell_w <= fst (rotated_size matrix cell_h cell_w) <= cell_h + cell_w
  /\ Z.min cell_h cell_w <= snd (rotated_size matrix cell_h cell_w) <= cell_h + cell_w.
Proof.
  intros Hh Hw Ha1 Hb1 Hunit.
  destruct (rotated_size_lower matrix cell_h cell_w (Z.min cell_h cell_w) Hunit)
    as [Hlo_h Hlo_w]; [lia..|].
  assert (Hh' : (0 <= inject_Z cell_h)%Q) by (by rewrite (Zle_Qle 0) in Hh).
  assert (Hw' : (0 <= inject_Z cell_w)%Q) by (by rewrite (Zle_Qle 0) in Hw).
  pose proof (Qabs_nonneg (m00 matrix)) as Ha. pose proof (Qabs_nonneg (m01 matrix)) as Hb.
  assert (Hha : (inject_Z cell_h * Qabs (m00 matrix) <= inject_Z cell_h * 1)%Q)
    by (apply Qmult_le_compat_nonneg; split; (assumption || apply Qle_refl)).
  assert (Hhb : (inject_Z cell_h * Qabs (m01 matrix) <= inject_Z cell_h * 1)%Q)
    by (apply Qmult_le_compat_nonneg; split; (assumption || apply Qle_refl)).
  assert (Hwa : (inject_Z cell_w * Qabs (m00 matrix) <= inject_Z cell_w * 1)%Q)
    by (apply Qmult_le_compat_nonneg; split; (assumption || apply Qle_refl)).
  assert (Hwb : (inject_Z cell_w * Qabs (m01 matrix) <= inject_Z cell_w * 1)%Q)
    by (apply Qmult_le_compat_nonneg; split; (assumption || apply Qle_refl)).
  destruct (rotated_extent_nonneg matrix cell_h cell_w Hh Hw) as [He0 He1].
  rewrite rotated_size_extent. cbn [fst snd].
  unfold rotated_extent in *. cbn [fst snd] in *.
  rewrite rotated_size_extent in Hlo_h, Hlo_w. cbn [fst snd] in Hlo_h, Hlo_w.
  unfold rotated_extent in Hlo_h, Hlo_w. cbn [fst snd] in Hlo_h, Hlo_w.
  split; (split; [assumption|]);
    rewrite <- (int_inject_Z (cell_h + cell_w)); apply int_mono; try assumption;
    rewrite inject_Z_plus; lra.
Qed.

Lemma rotated_size_bounds_witness :
  Z.min 10 10 <= fst (rotated_size rotation_45_about_5_5 10 10) <= 10 + 10
  /\ Z.min 10 10 <= snd (rotated_size rotation_45_about_5_5 10 10) <= 10 + 10.
Proof.
  apply (rotated_size_bounds rotation_45_about_5_5 10 10); try lia;
    vm_compute; discriminate.
Defined.

(* ------------------------------------------------------------------ *)
(** * Further properties: the noise *)

Lemma advance_py_zero {S : Type} (w : World S) : advance_py w 0 = w.
Proof. unfold advance_py. rewrite Nat.add_0_r. by destruct w as [[t p] ? ? ? ?]. Qed.

Lemma advance_py_add {S : Type} (w : World S) (a b : nat) :
  advance_py (advance_py w a) b = advance_py w (a + b).
Proof. unfold advance_py. cbn. by rewrite Nat.add_assoc. Qed.

Lemma advance_np_zero {S : Type} (w : World S) : advance_np w 0 = w.
Proof. unfold advance_np. rewrite Nat.add_0_r. by destruct w as [? [t p] ? ? ?]. Qed.

Lemma random_step {S : Type} (w : World S) :
  Random.random w = (Ok (next_unit (py_rng w)), advance_py w 1).
Proof.
  unfold Random.random, bind, Random.draw, rng_next, ret, advance_py, next_unit.
  cbn. by rewrite Nat.add_1_r.
Qed.

Lemma next_unit_range (g : Rng) : (0 <= next_unit g /\ next_unit g < 1)%Q.
Proof.
  unfold next_unit. pose proof (Z.mod_pos_bound (Z.of_N (tape g (pos g))) (2 ^ 53)).
  unfold Qle, Qlt. cbn [Qnum Qden]. lia.
Qed.

Lemma noise_image_rows {S : Type} (image : ndarray) (percent : Q) (w : World S) :
  noise_image image percent w
  = fold_each (range (shape0 image)) image
      (fun image i => fold_each (range (shape1 image)) image (noise_at percent i)) w.
Proof. reflexivity. Qed.

(** With a percentage of at most 0 a pixel is never hit. *)
Lemma noise_at_skips {S : Type} (percent : Q) (i j : Z) (image : ndarray) (w : World S) :
  (percent <= 0)%Q -> noise_at percent i image j w = (Ok image, advance_py w 1).
Proof.
  intros Hp. unfold noise_at, bind. rewrite random_step.
  destruct (next_unit_range (py_rng w)) as [Hu0 _].
  destruct (next_unit (py_rng w) ?= percent / 100)%Q eqn:E; try reflexivity.
  exfalso. apply Qlt_alt in E.
  assert (Hq : (percent / 100 <= 0)%Q).
  { apply Qle_shift_div_r; [reflexivity|]. by rewrite Qmult_0_l. }
  lra.
Qed.

Lemma fold_each_skips {S A : Type} (l : list A) (image : ndarray) (n : nat)
    (body : ndarray -> A -> M S ndarray) :
  (forall x w, body image x w = (Ok image, advance_py w n)) ->
  forall w, fold_each l image body w = (Ok image, advance_py w (length l * n)).
Proof.
  intros Hbody. induction l as [|x l IH]; intros w; cbn [fold_each length].
  - unfold ret. by rewrite advance_py_zero.
  - unfold bind. rewrite Hbody, IH, advance_py_add. reflexivity.
Qed.

(** X7.  With a percentage of at most 0, [noise_image] hands back the
    image as it was: it takes one word of [random] per pixel and none of
    [numpy.random], and stores nothing. *)
Theorem noise_image_percent_zero {S : Type} (image : ndarray) (percent : Q)
    (w : World S) :
  (percent <= 0)%Q ->
  noise_image image percent w
  = (Ok image,
     advance_py w (Z.to_nat (shape0 image) * Z.to_nat (shape1 image))).
Proof.
  intros Hp. rewrite noise_image_rows.
  rewrite (fold_each_skips (range (shape0 image)) image (Z.to_nat (shape1 image))).
  - unfold range. by rewrite length_seqZ.
  - intros i w'.
    rewrite (fold_each_skips (range (shape1 image)) image 1).
    + unfold range. rewrite length_seqZ. do 2 f_equal. lia.
    + intros j w''. by apply noise_at_skips.
Qed.

Lemma noise_image_percent_zero_witness :
  noise_image (Stub.constant 4 5 3 10) 0 (Stub.fresh 5 tt)
  = (Ok (Stub.constant 4 5 3 10),
     advance_py (Stub.fresh 5 tt) (Z.to_nat 4 * Z.to_nat 5)).
Proof.
  apply (noise_image_percent_zero (Stub.constant 4 5 3 10) 0 (Stub.fresh 5 tt)).
  discriminate.
Defined.

Lemma np_randint_triple {S : Type} (w : World S) :
  NpRandom.randint 0 256 3 w = (Ok (noise_triple (np_rng w) 0), advance_np w 3).
Proof.
  unfold NpRandom.randint. cbn [Z.leb Z.compare]. cbn [seq collect].
  unfold bind, NpRandom.draw, rng_next, ret, advance_np, noise_triple, np_byte.
  cbn [fst snd py_rng np_rng loader dirs log tape pos].
  f_equal; [f_equal|]; repeat (f_equal; try lia).
Qed.

(** With a percentage of at least 100 every pixel is hit: the next
    triple of [numpy.random] is stored at it. *)
Lemma noise_at_hits {S : Type} (percent : Q) (i j : Z) (image : ndarray) (w : World S) :
  (100 <= percent)%Q ->
  noise_at percent i image j w
  = (Np.set_pixel image i j (noise_triple (np_rng w) 0), advance_np (advance_py w 1) 3).
Proof.
  intros Hp. unfold noise_at. unfold bind at 1. rewrite random_step.
  destruct (next_unit_range (py_rng w)) as [_ Hu1].
  assert (Hq : (1 <= percent / 100)%Q).
  { apply Qle_shift_div_l; [reflexivity|]. by rewrite Qmult_1_l. }
  assert (E : (next_unit (py_rng w) ?= percent / 100)%Q = Lt)
    by (apply Qlt_alt; eapply Qlt_le_trans; eassumption).
  rewrite E. unfold bind. rewrite np_randint_triple. reflexivity.
Qed.

(** X8.  With a percentage of at least 100, [noise_image] on a
    non-empty image whose last axis is not 3 raises at its first pixel:
    the triple of noise does not fit the pixel.  One word of [random]
    and three of [numpy.random] were taken. *)
Theorem noise_image_wrong_channels_raises {S : Type} (image : ndarray) (percent : Q)
    (w : World S) :
  (100 <= percent)%Q ->
  0 < shape0 image -> 0 < shape1 image -> shape2 image <> 3 ->
  noise_image image percent w
  = (Raise (ValueError "could not broadcast input array"),
     advance_np (advance_py w 1) 3).
Proof.
  intros Hp H0 H1 H2. rewrite noise_image_rows. unfold range.
  rewrite (seqZ_cons 0 (shape0 image)) by lia. cbn [fold_each]. unfold bind at 1.
  rewrite (seqZ_cons 0 (shape1 image)) by lia. cbn [fold_each]. unfold bind at 1.
  rewrite noise_at_hits by exact Hp.
  unfold Np.set_pixel.
  assert (E : (Z.of_nat (length (noise_triple (np_rng w) 0)) =? shape2 image) = false)
    by (apply Z.eqb_neq; cbn; lia).
  cbn [np_rng advance_py]. rewrite E. reflexivity.
Qed.

Lemma noise_image_wrong_channels_raises_witness :
  noise_image (Stub.constant 4 5 4 10) 100 (Stub.fresh 5 tt)
  = (Raise (ValueError "could not broadcast input array"),
     advance_np (advance_py (Stub.fresh 5 tt) 1) 3).
Proof.
  apply (noise_image_wrong_channels_raises (Stub.constant 4 5 4 10) 100 (Stub.fresh 5 tt));
    cbn; (discriminate || lia).
Defined.

(** Turns the outcomes of integer tests among the hypotheses into the
    order facts they stand for. *)
Ltac order_facts :=
  repeat match goal with
  | H : (_ <? _) = true |- _ => apply Z.ltb_lt in H
  | H : (_ <? _) = false |- _ => apply Z.ltb_ge in H
  | H : (_ <=? _) = true |- _ => apply Z.leb_le in H
  | H : (_ <=? _) = false |- _ => apply Z.leb_gt in H
  | H : (_ =? _) = true |- _ => apply Z.eqb_eq in H
  | H : (_ =? _) = false |- _ => apply Z.eqb_neq in H
  end.

Lemma seqZ_to_nat (m len : Z) : seqZ m len = seqZ m (Z.of_nat (Z.to_nat len)).
Proof. unfold seqZ. by rewrite Nat2Z.id. Qed.

Lemma seqZ_succ (m : Z) (n : nat) :
  seqZ m (Z.of_nat (Datatypes.S n)) = m :: seqZ (Z.succ m) (Z.of_nat n).
Proof. rewrite seqZ_cons by lia. do 2 f_equal. lia. Qed.

Lemma advance_both {S : Type} (w : World S) (a b c d : nat) :
  advance_np (advance_py (advance_np (advance_py w a) b) c) d
  = advance_np (advance_py w (a + c)) (b + d).
Proof. unfold advance_np, advance_py. cbn. by rewrite !Nat.add_assoc. Qed.

Lemma np_byte_shift (t : nat -> N) (p n : nat) (k : Z) :
  0 <= k -> np_byte (mk_rng t (p + n)) k = np_byte (mk_rng t p) (Z.of_nat n + k).
Proof.
  intros Hk. unfold np_byte. cbn [tape pos].
  replace (p + n + Z.to_nat k)%nat with (p + Z.to_nat (Z.of_nat n + k))%nat by lia.
  reflexivity.
Qed.

Lemma noise_triple_shift (t : nat -> N) (p n : nat) (k : Z) :
  0 <= k ->
  noise_triple (mk_rng t (p + 3 * n)) k = noise_triple (mk_rng t p) (Z.of_nat n + k).
Proof.
  intros Hk. unfold noise_triple. rewrite !np_byte_shift by lia.
  replace (Z.of_nat (3 * n) + 3 * k) with (3 * (Z.of_nat n + k)) by lia.
  replace (Z.of_nat (3 * n) + (3 * k + 1)) with (3 * (Z.of_nat n + k) + 1) by lia.
  replace (Z.of_nat (3 * n) + (3 * k + 2)) with (3 * (Z.of_nat n + k) + 2) by lia.
  reflexivity.
Qed.

Lemma set_pixel_triple (image : ndarray) (i j : Z) (v : list Z) :
  shape2 image = 3 -> length v = 3%nat ->
  Np.set_pixel image i j v
  = Ok {| shape0 := shape0 image; shape1 := shape1 image; shape2 := shape2 image;
          item := fun i' j' c =>
            if (i' =? i) && (j' =? j) then nth (Z.to_nat c) v 0 else item image i' j' c |}.
Proof. intros Hc Hv. unfold Np.set_pixel. by rewrite Hv, Hc. Qed.

(** One row under a percentage of at least 100: the [n] pixels from
    column [j0] on receive the next [n] triples. *)
Lemma noise_row_full {S : Type} (percent : Q) (i : Z) :
  (100 <= percent)%Q ->
  forall (n : nat) (j0 : Z) (image : ndarray) (w : World S),
    shape2 image = 3 ->
    exists b,
      fold_each (seqZ j0 (Z.of_nat n)) image (noise_at percent i) w
      = (Ok b, advance_np (advance_py w n) (3 * n))
      /\ shape0 b = shape0 image /\ shape1 b = shape1 image /\ shape2 b = shape2 image
      /\ forall i' j' c,
           item b i' j' c =
           if (i' =? i) && ((j0 <=? j') && (j' <? j0 + Z.of_nat n))
           then nth (Z.to_nat c) (noise_triple (np_rng w) (j' - j0)) 0
           else item image i' j' c.
Proof.
  intros Hp. induction n as [|n IH]; intros j0 image w Hc.
  - exists image. cbn [seqZ fold_each]. unfold ret. cbn [Nat.mul].
    rewrite advance_py_zero, advance_np_zero. do 4 (split; [reflexivity|]).
    intros i' j' c. destruct (i' =? i); cbn [andb]; [|reflexivity].
    destruct (j0 <=? j') eqn:?; destruct (j' <? j0 + Z.of_nat 0) eqn:?;
      cbn [andb]; try reflexivity. order_facts. lia.
  - rewrite seqZ_succ. cbn [fold_each]. unfold bind at 1.
    rewrite noise_at_hits by exact Hp.
    rewrite set_pixel_triple by (exact Hc || reflexivity).
    match goal with |- context [fold_each _ ?img _ ?w1] =>
      destruct (IH (Z.succ j0) img w1 Hc) as (b & Eb & B0 & B1 & B2 & Hitem)
    end.
    exists b. rewrite Eb. split.
    { rewrite advance_both.
      replace (3 * Datatypes.S n)%nat with (3 + 3 * n)%nat by lia. reflexivity. }
    do 3 (split; [assumption|]).
    intros i' j' c. rewrite Hitem. cbn [item np_rng advance_np advance_py].
    destruct (i' =? i) eqn:Ei; cbn [andb]; [|reflexivity].
    destruct (Z.succ j0 <=? j') eqn:E1; destruct (j' <? Z.succ j0 + Z.of_nat n) eqn:E3;
      destruct (j0 <=? j') eqn:E2; destruct (j' <? j0 + Z.of_nat (Datatypes.S n)) eqn:E5;
      destruct (j' =? j0) eqn:E4; cbn [andb]; order_facts; try lia; try reflexivity.
    + f_equal. destruct (np_rng w) as [t p]. cbn [tape pos].
      rewrite (noise_triple_shift t p 1) by lia. f_equal. lia.
    + subst j'. do 2 f_equal. lia.
Qed.

(** The rows from [i0] on under a percentage of at least 100. *)
Lemma noise_rows_full {S : Type} (percent : Q) :
  (100 <= percent)%Q ->
  forall (m : nat) (i0 : Z) (image : ndarray) (w : World S),
    shape2 image = 3 ->
    exists b,
      fold_each (seqZ i0 (Z.of_nat m)) image
        (fun image i => fold_each (range (shape1 image)) image (noise_at percent i)) w
      = (Ok b, advance_np (advance_py w (m * Z.to_nat (shape1 image)))
                          (3 * (m * Z.to_nat (shape1 image))))
      /\ shape0 b = shape0 image /\ shape1 b = shape1 image /\ shape2 b = shape2 image
      /\ forall i' j' c,
           item b i' j' c =
           if ((i0 <=? i') && (i' <? i0 + Z.of_nat m))
              && ((0 <=? j') && (j' <? shape1 image))
           then nth (Z.to_nat c)
                    (noise_triple (np_rng w) ((i' - i0) * shape1 image + j')) 0
           else item image i' j' c.
Proof.
  intros Hp. induction m as [|m IH]; intros i0 image w Hc.
  - exists image. cbn [seqZ fold_each]. unfold ret. cbn [Nat.mul].
    rewrite advance_py_zero, advance_np_zero. do 4 (split; [reflexivity|]).
    intros i' j' c.
    destruct (i0 <=? i') eqn:?; destruct (i' <? i0 + Z.of_nat 0) eqn:?;
      cbn [andb]; try reflexivity. order_facts. lia.
  - rewrite seqZ_succ. cbn [fold_each]. unfold bind at 1.
    unfold range at 1. rewrite (seqZ_to_nat 0 (shape1 image)).
    destruct (noise_row_full percent i0 Hp (Z.to_nat (shape1 image)) 0 image w Hc)
      as (b1 & E1 & R0 & R1 & R2 & Hrow).
    rewrite E1.
    match goal with |- context [fold_each _ b1 _ ?w1] =>
      destruct (IH (Z.succ i0) b1 w1) as (b & Eb & B0 & B1 & B2 & Hitem);
        [congruence|]
    end.
    exists b. rewrite Eb, R1. split.
    { rewrite advance_both.
      replace (3 * (Datatypes.S m * Z.to_nat (shape1 image)))%nat
        with (3 * Z.to_nat (shape1 image) + 3 * (m * Z.to_nat (shape1 image)))%nat by lia.
      reflexivity. }
    do 3 (split; [congruence|]).
    intros i' j' c. rewrite Hitem, Hrow, R1. cbn [np_rng advance_np advance_py].
    destruct (Z.succ i0 <=? i') eqn:E2; destruct (i' <? Z.succ i0 + Z.of_nat m) eqn:E3;
      destruct (i0 <=? i') eqn:E4; destruct (i' <? i0 + Z.of_nat (Datatypes.S m)) eqn:E5;
      destruct (i' =? i0) eqn:E6; destruct (0 <=? j') eqn:E7;
      destruct (j' <? shape1 image) eqn:E8;
      destruct (j' <? 0 + Z.of_nat (Z.to_nat (shape1 image))) eqn:E9;
      cbn [andb]; order_facts; try lia; try reflexivity.
    + f_equal. destruct (np_rng w) as [t p]. cbn [tape pos].
      rewrite (noise_triple_shift t p (Z.to_nat (shape1 image))) by nia.
      f_equal. nia.
    + subst i'. do 2 f_equal. lia.
Qed.

(** X9.  With a percentage of at least 100, [noise_image] on an image
    of three channels returns, and replaces every pixel by a triple of
    [numpy.random], in row-major order: the pixel [(i, j)] receives the
    triple number [i * W + j].  It takes one word of [random] and three
    of [numpy.random] per pixel, keeps the shape, and leaves the items
    outside the image as they were. *)
Theorem noise_image_percent_full {S : Type} (image : ndarray) (percent : Q)
    (w : World S) :
  (100 <= percent)%Q -> shape2 image = 3 ->
  let pixels := (Z.to_nat (shape0 image) * Z.to_nat (shape1 image))%nat in
  exists b,
    noise_image image percent w
    = (Ok b, advance_np (advance_py w pixels) (3 * pixels))
    /\ has_shape b (shape0 image) (shape1 image) 3
    /\ (forall i j c,
          0 <= i < shape0 image -> 0 <= j < shape1 image ->
          item b i j c
          = nth (Z.to_nat c) (noise_triple (np_rng w) (i * shape1 image + j)) 0)
    /\ (forall i j c,
          ~ (0 <= i < shape0 image /\ 0 <= j < shape1 image) ->
          item b i j c = item image i j c)
    /\ (forall i j c,
          0 <= i < shape0 image -> 0 <= j < shape1 image -> 0 <= c < 3 ->
          0 <= item b i j c <= 255).
Proof.
  intros Hp Hc pixels. rewrite noise_image_rows. unfold range at 1.
  rewrite (seqZ_to_nat 0 (shape0 image)).
  destruct (noise_rows_full percent Hp (Z.to_nat (shape0 image)) 0 image w Hc)
    as (b & Eb & B0 & B1 & B2 & Hitem).
  exists b. split; [exact Eb|]. split; [unfold has_shape; repeat split; congruence|].
  assert (Hin : forall i j c,
            0 <= i < shape0 image -> 0 <= j < shape1 image ->
            item b i j c
            = nth (Z.to_nat c) (noise_triple (np_rng w) (i * shape1 image + j)) 0).
  { intros i j c Hi Hj. rewrite Hitem.
    destruct (0 <=? i) eqn:E1; destruct (i <? 0 + Z.of_nat (Z.to_nat (shape0 image))) eqn:E2;
      destruct (0 <=? j) eqn:E3; destruct (j <? shape1 image) eqn:E4;
      cbn [andb]; order_facts; try lia.
    do 2 f_equal. lia. }
  split; [exact Hin|]. split.
  - intros i j c Hout. rewrite Hitem.
    destruct (0 <=? i) eqn:E1; destruct (i <? 0 + Z.of_nat (Z.to_nat (shape0 image))) eqn:E2;
      destruct (0 <=? j) eqn:E3; destruct (j <? shape1 image) eqn:E4;
      cbn [andb]; order_facts; try reflexivity.
    exfalso. apply Hout. lia.
  - intros i j c Hi Hj Hcc. rewrite (Hin i j c Hi Hj). unfold noise_triple, np_byte.
    assert (Hb : forall x : N, 0 <= 0 + Z.of_N x mod (256 - 0) <= 255).
    { intros x. pose proof (Z.mod_pos_bound (Z.of_N x) (256 - 0)). lia. }
    assert (Hk : (Z.to_nat c = 0 \/ Z.to_nat c = 1 \/ Z.to_nat c = 2)%nat) by lia.
    destruct Hk as [-> | [-> | ->]]; cbn [nth]; apply Hb.
Qed.

Lemma noise_image_percent_full_witness :
  let image := Stub.constant 4 5 3 10 in
  let w := Stub.fresh 5 tt in
  let pixels := (Z.to_nat 4 * Z.to_nat 5)%nat in
  exists b,
    noise_image image 100 w = (Ok b, advance_np (advance_py w pixels) (3 * pixels))
    /\ has_shape b 4 5 3
    /\ (forall i j c,
          0 <= i < 4 -> 0 <= j < 5 ->
          item b i j c = nth (Z.to_nat c) (noise_triple (np_rng w) (i * 5 + j)) 0)
    /\ (forall i j c,
          ~ (0 <= i < 4 /\ 0 <= j < 5) -> item b i j c = item image i j c)
    /\ (forall i j c,
          0 <= i < 4 -> 0 <= j < 5 -> 0 <= c < 3 -> 0 <= item b i j c <= 255).
Proof.
  apply (noise_image_percent_full (Stub.constant 4 5 3 10) 100 (Stub.fresh 5 tt));
    [discriminate|reflexivity].
Defined.

(* ------------------------------------------------------------------ *)
(** * Further properties: the directory and the file names *)

Lemma written_paths_app (evs evs' : list Event) :
  written_paths (evs ++ evs') = written_paths evs ++ written_paths evs'.
Proof. unfold written_paths. apply omap_app. Qed.

Lemma written_paths_requests (evs : list Event) :
  Forall is_request evs -> written_paths evs = [].
Proof.
  induction 1 as [|ev evs Hev _ IH]; [reflexivity|].
  destruct ev; try (by destruct Hev); exact IH.
Qed.

Section Requests.

Context `{Cv2} {S : Type} `{DatasetLoader S}.

Lemma asks_only_silent {A} (m : M S A) :
  (forall w, log (snd (m w)) = log w /\ dirs (snd (m w)) = dirs w) -> asks_only m.
Proof.
  intros Hm w. exists []. destruct (Hm w) as [L D].
  rewrite L, D, app_nil_r. done.
Qed.

Lemma asks_only_ret {A} (a : A) : asks_only (ret a : M S A).
Proof. by apply asks_only_silent. Qed.

Lemma asks_only_raise {A} (e : exn) : asks_only (@raise S A e).
Proof. by apply asks_only_silent. Qed.

Lemma asks_only_lift {A} (r : Result A) : asks_only (lift r : M S A).
Proof. by apply asks_only_silent. Qed.

Lemma asks_only_bind {A B} (m : M S A) (k : A -> M S B) :
  asks_only m -> (forall a, asks_only (k a)) -> asks_only (bind m k).
Proof.
  intros Hm Hk w. unfold bind. destruct (Hm w) as (evs & L & F & D).
  destruct (m w) as [[a|e] w1]; cbn in *.
  - destruct (Hk a w1) as (evs' & L' & F' & D'). exists (evs ++ evs').
    rewrite L', L, D', D, app_assoc. split; [done|]. split; [by apply Forall_app|done].
  - by exists evs.
Qed.

Lemma asks_only_fold_each {A B} (l : list A) (body : B -> A -> M S B) :
  (forall acc x, asks_only (body acc x)) -> forall acc, asks_only (fold_each l acc body).
Proof.
  intros Hbody. induction l as [|x l IH]; intros acc; cbn [fold_each].
  - apply asks_only_ret.
  - apply asks_only_bind; [apply Hbody|apply IH].
Qed.

Lemma asks_only_collect {A B} (l : list A) (body : A -> M S B) :
  (forall x, asks_only (body x)) -> asks_only (collect l body).
Proof.
  intros Hbody. induction l as [|x l IH]; cbn [collect].
  - apply asks_only_ret.
  - apply asks_only_bind; [apply Hbody|]. intros y.
    apply asks_only_bind; [apply IH|]. intros ys. apply asks_only_ret.
Qed.

Lemma asks_only_random_draw : asks_only (@Random.draw S).
Proof. by apply asks_only_silent. Qed.

Lemma asks_only_np_draw : asks_only (@NpRandom.draw S).
Proof. by apply asks_only_silent. Qed.

Lemma asks_only_emit (ev : Event) : is_request ev -> asks_only (emit ev : M S unit).
Proof. intros Hev w. exists [ev]. cbn. split; [done|]. split; [by constructor|done]. Qed.

Lemma asks_only_randint (a b : Z) : asks_only (@Random.randint S a b).
Proof.
  unfold Random.randint. destruct (b <? a); [apply asks_only_raise|].
  apply asks_only_bind; [apply asks_only_random_draw|]. intros r. apply asks_only_ret.
Qed.

Lemma asks_only_random : asks_only (@Random.random S).
Proof.
  unfold Random.random.
  apply asks_only_bind; [apply asks_only_random_draw|]. intros r. apply asks_only_ret.
Qed.

Lemma asks_only_uniform (a b : Q) : asks_only (@Random.uniform S a b).
Proof.
  unfold Random.uniform.
  apply asks_only_bind; [apply asks_only_random|]. intros r. apply asks_only_ret.
Qed.

Lemma asks_only_np_randint (low high : Z) (size : nat) :
  asks_only (@NpRandom.randint S low high size).
Proof.
  unfold NpRandom.randint. destruct (high <=? low); [apply asks_only_raise|].
  apply asks_only_collect. intros _.
  apply asks_only_bind; [apply asks_only_np_draw|]. intros r. apply asks_only_ret.
Qed.

Lemma asks_only_loader_background : asks_only (loader_background : M S string).
Proof.
  intros w. unfold loader_background.
  destruct (get_random_background (loader w) (py_rng w)) as [[p s] g].
  exists [EvBackground p]. cbn. split; [done|]. split; [by constructor|done].
Qed.

Lemma asks_only_loader_cell : asks_only (loader_cell : M S string).
Proof.
  intros w. unfold loader_cell.
  destruct (get_random_cell (loader w) (py_rng w)) as [[p s] g].
  exists [EvCell p]. cbn. split; [done|]. split; [by constructor|done].
Qed.

Lemma asks_only_load_image (self : ImageGenerator) (path : string)
    (do_resize with_alpha : bool) :
  asks_only (_load_image self path do_resize with_alpha : M S ndarray).
Proof.
  unfold _load_image. destruct (imread path _) as [image|].
  - apply asks_only_bind; [by apply asks_only_emit|]. intros _.
    destruct do_resize; [apply asks_only_lift|apply asks_only_ret].
  - apply asks_only_bind; [by apply asks_only_emit|]. intros _. apply asks_only_raise.
Qed.

Lemma asks_only_generate_cell_coords (self : ImageGenerator) (count : Z) :
  asks_only (_generate_cell_coords self count : M S _).
Proof.
  unfold _generate_cell_coords. apply asks_only_collect. intros _.
  apply asks_only_bind; [apply asks_only_randint|]. intros h.
  apply asks_only_bind; [apply asks_only_randint|]. intros w. apply asks_only_ret.
Qed.

Lemma asks_only_rotate_cell (cell : ndarray) (cell_h cell_w : Z) :
  asks_only (_rotate_cell cell cell_h cell_w : M S _).
Proof.
  unfold _rotate_cell. apply asks_only_bind; [apply asks_only_randint|]. intros angle.
  destruct (rotated_size _ _ _) as [new_h new_w].
  apply asks_only_bind; [apply asks_only_lift|]. intros rotated. apply asks_only_ret.
Qed.

Lemma asks_only_overlay (self : ImageGenerator) (background cell : ndarray)
    (coord : Coord) (transparency : Q) :
  asks_only (_overlay self background cell coord transparency : M S _).
Proof.
  unfold _overlay. apply asks_only_bind; [apply asks_only_uniform|]. intros u.
  apply asks_only_bind; [apply asks_only_lift|]. intros c.
  apply asks_only_bind; [apply asks_only_rotate_cell|]. intros [[rotated new_h] new_w].
  apply asks_only_lift.
Qed.

Lemma asks_only_noise_image (image : ndarray) (percent : Q) :
  asks_only (noise_image image percent : M S _).
Proof.
  unfold noise_image. apply asks_only_fold_each. intros row i.
  apply asks_only_fold_each. intros acc j.
  apply asks_only_bind; [apply asks_only_random|]. intros r.
  destruct (r ?= percent / 100)%Q; try apply asks_only_ret.
  apply asks_only_bind; [apply asks_only_np_randint|]. intros v. apply asks_only_lift.
Qed.

Lemma asks_only_generate_image (self : ImageGenerator) :
  asks_only (_generate_image self : M S ndarray).
Proof.
  unfold _generate_image.
  apply asks_only_bind; [apply asks_only_randint|]. intros n.
  apply asks_only_bind; [apply asks_only_generate_cell_coords|]. intros coords.
  apply asks_only_bind; [apply asks_only_loader_background|]. intros path.
  apply asks_only_bind; [apply asks_only_load_image|]. intros background.
  apply asks_only_bind.
  - apply asks_only_fold_each. intros bg i.
    apply asks_only_bind; [apply asks_only_loader_cell|]. intros p.
    apply asks_only_bind; [apply asks_only_load_image|]. intros cell.
    apply asks_only_bind; [apply asks_only_uniform|]. intros transparency.
    apply asks_only_bind; [apply asks_only_lift|]. intros coord.
    apply asks_only_overlay.
  - intros bg. unfold _apply_random_noise.
    apply asks_only_bind; [apply asks_only_uniform|]. intros percent.
    apply asks_only_noise_image.
Qed.

(** The loop of [generate_and_save]: the images of a prefix of the
    indices are written, each to its own path; the loop returns when the
    prefix is the whole list and raises otherwise. *)
Lemma save_loop_paths (self : ImageGenerator) (save_dir : string) (l : list Z) :
  forall w : World S,
    let out := for_each l (save_one self save_dir) w in
    exists k : nat,
      written_paths (log (snd out))
      = written_paths (log w) ++ (result_path save_dir <$> take k l)
      /\ dirs (snd out) = dirs w
      /\ ((fst out = Ok tt /\ k = length l)
          \/ ((exists e, fst out = Raise e) /\ (k < length l)%nat)).
Proof.
  induction l as [|idx l IH]; intros w; cbn zeta; cbn [for_each].
  - exists 0%nat. cbn. rewrite app_nil_r. split; [done|]. split; [done|]. by left.
  - destruct (asks_only_generate_image self w) as (evs & L & F & D).
    destruct (_generate_image self w) as [[img|e] w1] eqn:E1; cbn [fst snd] in L, D.
    + set (w2 := mk_world (py_rng w1) (np_rng w1) (loader w1) (dirs w1)
                   (log w1 ++ [EvImwrite (path_join save_dir (result_name idx)) img])).
      assert (Eout : (save_one self save_dir idx ;;; for_each l (save_one self save_dir)) w
                     = for_each l (save_one self save_dir) w2).
      { unfold bind at 1. unfold save_one at 1. unfold bind at 1. by rewrite E1. }
      rewrite Eout.
      destruct (IH w2) as (k & P & D2 & Hk). cbn zeta in P, D2, Hk.
      exists (Datatypes.S k). split; [|split].
      * rewrite P. unfold w2. cbn [log]. rewrite L, !written_paths_app.
        rewrite (written_paths_requests evs F). cbn. rewrite app_nil_r.
        by rewrite <- app_assoc.
      * rewrite D2. exact D.
      * destruct Hk as [[E ->]|[E Hlt]]; [by left|right].
        split; [exact E|cbn; lia].
    + assert (Eout : (save_one self save_dir idx ;;; for_each l (save_one self save_dir)) w
                     = (Raise e, w1)).
      { unfold bind at 1. unfold save_one at 1. unfold bind at 1. by rewrite E1. }
      rewrite Eout.
      exists 0%nat. cbn [fst snd take fmap list_fmap length].
      rewrite L, written_paths_app, (written_paths_requests evs F), !app_nil_r.
      split; [done|]. split; [exact D|]. right. split; [by exists e|lia].
Qed.

End Requests.

Lemma string_length_app (a b : string) :
  String.length (a +:+ b) = (String.length a + String.length b)%nat.
Proof.
  induction a as [|c a IH]; [reflexivity|].
  change (Datatypes.S (String.length (a +:+ b))
          = Datatypes.S (String.length a + String.length b)).
  by rewrite IH.
Qed.

Lemma append_cancel_r (a b t : string) : a +:+ t = b +:+ t -> a = b.
Proof.
  revert b. induction a as [|c a IH]; intros [|c' b] E.
  - reflexivity.
  - exfalso. apply (f_equal String.length) in E.
    rewrite !string_length_app in E. cbn in E. lia.
  - exfalso. apply (f_equal String.length) in E.
    rewrite !string_length_app in E. cbn in E. lia.
  - change (String c (a +:+ t) = String c' (b +:+ t)) in E.
    injection E as -> E. f_equal. by apply IH.
Qed.

Lemma result_name_inj (i j : Z) : result_name i = result_name j -> i = j.
Proof.
  unfold result_name. intros E. apply (inj (String.app "result_")) in E.
  apply append_cancel_r in E. by apply (inj pretty) in E.
Qed.

Lemma path_join_inj (save_dir a b : string) :
  path_join save_dir a = path_join save_dir b -> a = b.
Proof.
  unfold path_join. destruct (decide (save_dir = "")); [done|].
  destruct (decide _).
  - apply (inj (String.app save_dir)).
  - intros E. apply (inj (String.app save_dir)) in E.
    by apply (inj (String.app "/")) in E.
Qed.

Lemma take_range (k : nat) (n : Z) :
  (k <= Z.to_nat n)%nat -> take k (range n) = range (Z.of_nat k).
Proof.
  intros Hk. unfold range. destruct k as [|k]; [reflexivity|].
  replace n with (Z.of_nat (Datatypes.S k) + (n - Z.of_nat (Datatypes.S k))) at 1 by lia.
  rewrite seqZ_app by lia.
  rewrite take_app_length'; [reflexivity|]. rewrite length_seqZ. lia.
Qed.


(** X11.  [generate_and_save] writes the images of the indices
    [0, ..., k - 1], in this order, the image [idx] to
    [os.path.join(save_dir, f"result_{idx}.png")]; these paths differ
    from one another.  When the call returns, [k] is the length of
    [range(num_imgs)]; when it raises, [k] is smaller: the images
    generated before the failure stay written, and none after it. *)
Theorem generate_and_save_file_names `{Cv2} {S : Type} `{DatasetLoader S}
    (self : ImageGenerator) (save_dir : string) (w : World S) :
  let out := generate_and_save self save_dir w in
  exists k : nat,
    written_paths (log (snd out))
    = written_paths (log w) ++ (result_path save_dir <$> range (Z.of_nat k))
    /\ NoDup (result_path save_dir <$> range (Z.of_nat k))
    /\ ((fst out = Ok tt /\ k = Z.to_nat (num_imgs self))
        \/ ((exists e, fst out = Raise e) /\ (k < Z.to_nat (num_imgs self))%nat)).
Proof.
  cbn zeta. rewrite generate_and_save_loop.
  destruct (save_loop_paths self save_dir (range (num_imgs self))
              (snd (ensure_dir save_dir w))) as (k & P & _ & Hk).
  cbn zeta in P, Hk.
  assert (Hlen : length (range (num_imgs self)) = Z.to_nat (num_imgs self))
    by apply length_seqZ.
  rewrite Hlen in Hk.
  exists k. rewrite take_range in P by (destruct Hk as [[_ ->]|[_ Hlt]]; lia).
  split; [|split; [|exact Hk]].
  - rewrite P. f_equal. unfold ensure_dir.
    destruct (decide (save_dir ∈ dirs w)); [reflexivity|].
    cbn. rewrite written_paths_app. apply app_nil_r.
  - apply NoDup_fmap_2_strong; [|apply NoDup_seqZ].
    intros i j _ _ E. unfold result_path in E.
    apply result_name_inj. by apply path_join_inj in E.
Qed.



(* ------------------------------------------------------------------ *)
(** * Further properties: what one image asks *)

Section Emits.

Context `{Cv2} {S : Type} `{DatasetLoader S}.










End Emits.



(* ------------------------------------------------------------------ *)
(** * Further properties: what the overlay takes from [random] *)

Lemma randint_step {S : Type} (a b : Z) (w : World S) :
  a <= b ->
  Random.randint a b w
  = (Ok (a + Z.of_N (tape (py_rng w) (pos (py_rng w))) mod (b - a + 1)), advance_py w 1).
Proof.
  intros Hab. unfold Random.randint. destruct (b <? a) eqn:E; [lia|].
  unfold bind, Random.draw, rng_next, ret, advance_py. cbn. by rewrite Nat.add_1_r.
Qed.

Lemma uniform_step {S : Type} (a b : Q) (w : World S) :
  Random.uniform a b w = (Ok (a + (b - a) * next_unit (py_rng w))%Q, advance_py w 1).
Proof. unfold Random.uniform, bind. by rewrite random_step. Qed.

Lemma advance_py_twice {S : Type} (w : World S) (a b : nat) :
  advance_py (advance_py w a) b = advance_py w (a + b).
Proof. unfold advance_py. cbn. by rewrite Nat.add_assoc. Qed.

(** [_rotate_cell] takes one word of [random], the angle, also when
    [cv2.warpAffine] raises. *)
Lemma rotate_cell_draws `{Cv2} {S : Type} (cell : ndarray) (cell_h cell_w : Z)
    (w : World S) :
  snd (_rotate_cell cell cell_h cell_w w) = advance_py w 1.
Proof.
  unfold _rotate_cell. unfold bind at 1. rewrite randint_step by lia.
  destruct (rotated_size _ _ _) as [new_h new_w].
  unfold bind, lift, ret. by destruct (warpAffine _ _ _).
Qed.

(** X14.  [_overlay] changes nothing of the state but the generator of
    [random], of which it takes the next word for the scale and, unless
    [cv2.resize] refuses the scaled size, the word after it for the
    angle: it never draws from [numpy.random], asks nothing of the
    loader and writes nothing.  When it returns it has taken exactly
    two words. *)
Theorem overlay_draws `{Cv2} {S : Type}
    (self : ImageGenerator) (background cell : ndarray) (coord : Coord)
    (transparency : Q) (w : World S) :
  let out := _overlay self background cell coord transparency w in
  let scale := Num.round2 ((5 # 100) + ((20 # 100) - (5 # 100)) * next_unit (py_rng w)) in
  let cell_size := Num.int (inject_Z (Num.min2 (img_size self)) * scale) in
  match resize cell (cell_size, cell_size) with
  | Raise e => out = (Raise e, advance_py w 1)
  | Ok _ => snd out = advance_py w 2
  end.
Proof.
  intros out scale cell_size.
  assert (E : out = match resize cell (cell_size, cell_size) with
                    | Ok c =>
                        bind (_rotate_cell c cell_size cell_size)
                          (fun rotated =>
                             let '(cell, cell_h, cell_w) := rotated in
                             lift (clip_and_blend background cell coord cell_h cell_w
                                                  transparency))
                          (advance_py w 1)
                    | Raise e => (Raise e, advance_py w 1)
                    end).
  { unfold out, _overlay. unfold bind at 1. rewrite uniform_step.
    unfold bind at 1. unfold lift at 1. fold scale. fold cell_size.
    by destruct (resize cell (cell_size, cell_size)). }
  destruct (resize cell (cell_size, cell_size)) as [c|e]; [|exact E].
  rewrite E. unfold bind.
  pose proof (rotate_cell_draws c cell_size cell_size (advance_py w 1)) as Hrot.
  rewrite advance_py_twice in Hrot.
  destruct (_rotate_cell c cell_size cell_size (advance_py w 1))
    as [[[[rotated new_h] new_w]|e] w1];
    cbn [snd] in Hrot; subst w1; reflexivity.
Qed.

(* ------------------------------------------------------------------ *)
(** * Further properties: the constructor, the placements and the noise
      at the edges of their arguments *)

(** X15.  A seed outside [[0, 2^32)] is accepted by [random.seed] and
    refused by [np.random.seed]: the constructor raises [ValueError]
    after it has reseeded [random], so that a run with such a seed ends
    there, with no directory made, no path asked of the loader and no
    image written. *)
Theorem run_generator_refused_seed `{Cv2} {S : Type} `{DatasetLoader S} `{Seeding}
    (img_size : Z * Z) (num_imgs min_cells max_cells seed : Z) (save_dir : string)
    (w : World S) :
  seed < 0 \/ 2 ^ 32 <= seed ->
  run_generator img_size num_imgs min_cells max_cells (Some seed) save_dir w
  = (Raise (ValueError "Seed must be between 0 and 2**32 - 1"),
     with_py_rng w (random_seed seed)).
Proof.
  intros Hseed. unfold run_generator. unfold bind at 1.
  rewrite init_seeded_refused; [reflexivity|].
  apply orb_true_iff. destruct Hseed; [left; lia|right; lia].
Qed.

Lemma run_generator_refused_seed_witness :
  run_generator (20, 30) 2 1 3 (Some (-1)) "out" (Stub.fresh 5 tt)
  = (Raise (ValueError "Seed must be between 0 and 2**32 - 1"),
     with_py_rng (Stub.fresh 5 tt) (random_seed (-1))).
Proof.
  apply (run_generator_refused_seed (20, 30) 2 1 3 (-1) "out" (Stub.fresh 5 tt)).
  left. lia.
Defined.

Lemma percent_of_negative (n : Z) : n < 0 -> n - Num.percent_of n < 0.
Proof.
  intros Hn. rewrite percent_of_quot.
  replace n with (- (- n)) at 2 by lia. rewrite Z.quot_opp_l by lia.
  rewrite Z.quot_div_nonneg by lia.
  pose proof (Z.div_lt (- n) 100). lia.
Qed.

Lemma range_cons (n : Z) : 1 <= n -> range n = 0 :: seqZ 1 (n - 1).
Proof. intros Hn. unfold range. rewrite seqZ_cons by lia. reflexivity. Qed.

(** X16.  With a negative side in [img_size] the range of the matching
    [random.randint] is empty: asked for at least one placement,
    [_generate_cell_coords] raises [ValueError] at the first one, before
    any word is drawn when the height is negative, after the word of
    the row when only the width is. *)
Theorem cell_coords_negative_side {S : Type}
    (self : ImageGenerator) (count : Z) (w : World S) :
  1 <= count ->
  (fst (img_size self) < 0 ->
     exists msg, _generate_cell_coords self count w = (Raise (ValueError msg), w))
  /\ (0 <= fst (img_size self) -> snd (img_size self) < 0 ->
     exists msg,
       _generate_cell_coords self count w = (Raise (ValueError msg), advance_py w 1)).
Proof.
  intros Hcount. unfold _generate_cell_coords. rewrite range_cons by exact Hcount.
  cbn [collect]. split.
  - intros Hh. pose proof (percent_of_negative _ Hh) as Hneg.
    destruct (randint_empty 0 _ w Hneg) as (msg & E).
    exists msg. unfold bind at 1. unfold bind at 1. by rewrite E.
  - intros Hh Hw. pose proof (percent_of_negative _ Hw) as Hneg.
    pose proof (percent_of_range _ Hh) as Hpos.
    destruct (randint_empty 0 _ (advance_py w 1) Hneg) as (msg & E).
    exists msg. unfold bind at 1. unfold bind at 1.
    rewrite randint_step by lia. unfold bind at 1. by rewrite E.
Qed.

Lemma cell_coords_negative_side_witness :
  (fst (-20, 30) < 0 ->
     exists msg,
       _generate_cell_coords (mk_generator (-20, 30) 2 1 3) 2 (Stub.fresh 5 tt)
       = (Raise (ValueError msg), Stub.fresh 5 tt))
  /\ (0 <= fst (-20, 30) -> snd (-20, 30) < 0 ->
     exists msg,
       _generate_cell_coords (mk_generator (-20, 30) 2 1 3) 2 (Stub.fresh 5 tt)
       = (Raise (ValueError msg), advance_py (Stub.fresh 5 tt) 1)).
Proof.
  apply (cell_coords_negative_side (mk_generator (-20, 30) 2 1 3) 2 (Stub.fresh 5 tt)).
  lia.
Defined.

